(** * browsertunnel: the DNS fragment-reassembly core of [tunnel.go]

    A shallow embedding of [tunnel.go] and the properties of its
    specification.  Go values are modelled as follows.

    - A Go [string] and a [[]byte] are both [list ascii] (a Go string is a
      sequence of bytes; an [ascii] is exactly one byte).
    - A Go [int] is a [Z].  [strconv.Atoi] is the only place where the width
      of [int] is visible ([intSize], 64 bits); the byte counter of
      [listenDomains] adds lengths of strings that are all held in memory at
      the same time, so it stays far below [2^63] and is kept unbounded.
    - Go maps are stdpp [gmap]s.  The order in which [for ... range] visits a
      map is left open by Go; it is an explicit [map_order] argument.
    - [time.Time] and [time.Duration] are [Z] (nanoseconds).
    - A run-time panic is the third case of [outcome]. *)

From Stdlib Require Import ZArith NArith Ascii String List Lia Bool.
From stdpp Require Import base tactics option list gmap strings fin_maps.

#[local] Open Scope Z_scope.

(** ** Go strings *)

(** A Go [string], and a [[]byte]: a sequence of bytes. *)
Abbreviation gostring := (list ascii).

(** String literals of the source are written [str "..."]. *)
Definition str (s : string) : gostring := list_ascii_of_string s.

(** The value of a byte, and the [int] of it. *)
Definition byte_val (c : ascii) : Z := Z.of_N (N_of_ascii c).

(** [len(s)] *)
Definition len (s : gostring) : Z := Z.of_nat (length s).

(** [strings.HasSuffix(s, suffix)]:
    [len(s) >= len(suffix) && s[len(s)-len(suffix):] == suffix] *)
Definition HasSuffix (s suffix : gostring) : bool :=
  (length suffix <=? length s)%nat
  && bool_decide (drop (length s - length suffix) s = suffix).

(** [strings.TrimSuffix(s, suffix)] *)
Definition TrimSuffix (s suffix : gostring) : gostring :=
  if HasSuffix s suffix then take (length s - length suffix) s else s.

(** [strings.Split(s, sep)] for a one-byte separator: the substrings between
    the separators, [n+1] of them for [n] separators. *)
Fixpoint Split (s : gostring) (sep : ascii) : list gostring :=
  match s with
  | [] => [[]]
  | c :: s' =>
      if bool_decide (c = sep) then [] :: Split s' sep
      else match Split s' sep with
           | [] => [[c]]
           | l :: ls => (c :: l) :: ls
           end
  end.

(** [strings.Join(elems, "")] *)
Definition Join (elems : list gostring) : gostring := concat elems.

(** ** Errors, results and panics *)

Inductive error : Type :=
  | ErrTopDomain (domain topDomain : gostring)
      (* "Domain %s does not have top domain %s" *)
  | ErrLabels (n : Z)
      (* "Domain has %d labels but expected at least 4" *)
  | ErrNum (s : gostring)
      (* *strconv.NumError of Atoi, syntax or range *)
  | ErrOffset (offset totalSize : Z)
      (* "Offset %d > total size %d" *)
  | ErrCorruptInput.
      (* base32.CorruptInputError *)

Inductive outcome (A : Type) : Type :=
  | Ok (a : A)
  | Err (e : error)
  | Panic.
Arguments Ok {A} a.
Arguments Err {A} e.
Arguments Panic {A}.

Definition is_Err {A} (r : outcome A) : Prop := ∃ e, r = Err e.

(** [x ← e; k]: the [if err != nil { return ..., err }] that follows a call. *)
#[global] Instance outcome_bind : MBind outcome := λ A B k r,
  match r with
  | Ok a => k a
  | Err e => Err e
  | Panic => Panic
  end.

(** ** strconv.Atoi *)

(** [strconv.IntSize] *)
Definition intSize : Z := 64.
Definition maxInt : Z := 2 ^ (intSize - 1) - 1.
Definition minInt : Z := - 2 ^ (intSize - 1).

Definition is_digit (c : ascii) : bool :=
  (48 <=? byte_val c) && (byte_val c <=? 57).

(** The digit loop [n = n*10 + int(ch - '0')]; [None] is the syntax error
    of a byte that is not a decimal digit. *)
Fixpoint digits_value (n : Z) (s : gostring) : option Z :=
  match s with
  | [] => Some n
  | ch :: s' =>
      if is_digit ch then digits_value (n * 10 + (byte_val ch - 48)) s'
      else None
  end.

(** [strconv.Atoi(s)]: an optional sign, then at least one decimal digit and
    nothing else (no underscores in base 10); the value must fit an [int].
    Both the syntax error and the range error are [ErrNum]. *)
Definition Atoi (s : gostring) : outcome Z :=
  let '(neg, ds) :=
    match s with
    | c :: s' =>
        if bool_decide (c = "-"%char) then (true, s')
        else if bool_decide (c = "+"%char) then (false, s')
        else (false, s)
    | [] => (false, s)
    end in
  match ds with
  | [] => Err (ErrNum s)
  | _ =>
      match digits_value 0 ds with
      | None => Err (ErrNum s)
      | Some n =>
          let v := if neg : bool then - n else n in
          if (minInt <=? v) && (v <=? maxInt) then Ok v else Err (ErrNum s)
      end
  end.

(** ** The data model of tunnel.go *)

Record fragment : Type := Fragment {
  id : gostring;
  totalSize : Z;
  offset : Z;
  data : gostring;
}.

#[global] Instance fragment_eq_dec : EqDecision fragment.
Proof. solve_decision. Defined.

(** The field [totalSize] of a fragment list is [fl_totalSize]: the name
    [totalSize] is the one of the fragment's field. *)
Record fragmentList : Type := FragmentList {
  fl_totalSize : Z;
  fragments : gmap Z fragment;
  expiresAt : Z;
}.

(** ** parseDomain *)

Definition parseDomain (topDomain domain : gostring) : outcome fragment :=
  if negb (HasSuffix domain (str "." ++ topDomain)) then
    Err (ErrTopDomain domain topDomain)
  else
    let payload := TrimSuffix domain (str "." ++ topDomain) in
    let labels := Split payload "."%char in
    match labels with
    | l0 :: l1 :: l2 :: l3 :: rest =>    (* len(labels) >= 4 *)
        totalSize ← Atoi l1;
        offset ← Atoi l2;
        Ok {| id := l0; totalSize := totalSize; offset := offset;
              data := Join (l3 :: rest) |}
    | _ => Err (ErrLabels (Z.of_nat (length labels)))
    end.

(** ** encoding/base32: the decoder

    [decoder = base32.NewEncoding("abcdefghijklmnopqrstuvwxyz234567")
                 .WithPadding('0')] *)

Definition encoder : gostring := str "abcdefghijklmnopqrstuvwxyz234567".
Definition padChar : ascii := "0"%char.

Fixpoint index_of (c : ascii) (s : gostring) (i : Z) : option Z :=
  match s with
  | [] => None
  | c' :: s' => if bool_decide (c = c') then Some i else index_of c s' (i + 1)
  end.

(** [enc.decodeMap[c]]: the index of [c] in the alphabet, [0xFF] for a byte
    outside it. *)
Definition decodeMap (c : ascii) : Z := default 255 (index_of c encoder 0).

(** Conversion of an arithmetic result to [uint8]. *)
Definition u8 (z : Z) : Z := z mod 256.
Definition byte_of (z : Z) : ascii := ascii_of_N (Z.to_N z).

(** The [switch dlen] at the end of a quantum, with its fallthroughs: the
    bytes that [dlen] symbols of [dbuf] yield. *)
Definition pack (dbuf : list Z) (dlen : nat) : list ascii :=
  let d (k : nat) : Z := dbuf !!! k in
  let dst0 := Z.lor (u8 (d 0%nat ≪ 3)) (d 1%nat ≫ 2) in
  let dst1 := Z.lor (Z.lor (u8 (d 1%nat ≪ 6)) (u8 (d 2%nat ≪ 1))) (d 3%nat ≫ 4) in
  let dst2 := Z.lor (u8 (d 3%nat ≪ 4)) (d 4%nat ≫ 1) in
  let dst3 := Z.lor (Z.lor (u8 (d 4%nat ≪ 7)) (u8 (d 5%nat ≪ 2))) (d 6%nat ≫ 3) in
  let dst4 := Z.lor (u8 (d 6%nat ≪ 5)) (d 7%nat) in
  byte_of <$>
    match dlen with
    | 8%nat => [dst0; dst1; dst2; dst3; dst4]
    | 7%nat => [dst0; dst1; dst2; dst3]
    | 5%nat => [dst0; dst1; dst2]
    | 4%nat => [dst0; dst1]
    | 2%nat => [dst0]
    | _ => []
    end.

(** [enc.decode].  The two nested loops of the Go function, over quanta and
    over the eight symbols of a quantum, are one recursion over [src]:
    [dbuf] and [j] are the symbol buffer and the position inside the current
    quantum; the branch [S j = 8] is the end of the inner loop, where the
    quantum is packed and the outer loop goes on with a fresh [dbuf]. *)
Fixpoint decode (dbuf : list Z) (j : nat) (src : gostring)
    : outcome gostring :=
  match src with
  | [] =>
      if (j =? 0)%nat then Ok []          (* [len(src) > 0] fails: done *)
      else Err ErrCorruptInput            (* end reached, padding missing *)
  | c :: src' =>                          (* [in := src[0]; src = src[1:]] *)
      if bool_decide (c = padChar) && (2 <=? j)%nat && (length src' <? 8)%nat
      then
        if (length src' + j <? 8 - 1)%nat then
          Err ErrCorruptInput             (* not enough padding *)
        else if negb (forallb (λ c', bool_decide (c' = padChar))
                        (take (8 - 1 - j) src')) then
          Err ErrCorruptInput             (* incorrect padding *)
        else if bool_decide (j = 1 ∨ j = 3 ∨ j = 6)%nat then
          Err ErrCorruptInput             (* invalid padding length *)
        else Ok (pack dbuf j)             (* [dlen, end = j, true] *)
      else
        let v := decodeMap c in
        if v =? 255 then Err ErrCorruptInput
        else
          let dbuf' := <[j := v]> dbuf in
          if (S j =? 8)%nat then
            out ← decode (replicate 8 0) 0 src';
            Ok (pack dbuf' 8 ++ out)
          else decode dbuf' (S j) src'
  end.

(** [stripNewlines]: carriage returns and line feeds are skipped. *)
Definition stripNewlines (s : gostring) : gostring :=
  filter (λ c, c ≠ "013"%char ∧ c ≠ "010"%char) s.

(** [decoder.DecodeString(s)] *)
Definition DecodeString (s : gostring) : outcome gostring :=
  decode (replicate 8 0) 0 (stripNewlines s).

(** ** assemble *)

(** [make([]byte, n)]: [n] zero bytes; a negative length panics.  (The
    memory of the machine is not modelled: every non-negative length is
    allocated.) *)
Definition make (n : Z) : outcome gostring :=
  if n <? 0 then Panic else Ok (replicate (Z.to_nat n) zero).

(** [copy(buf[off:], data)].  The slice expression [buf[off:]] panics unless
    [0 <= off <= len(buf)]; [copy] then writes
    [min(len(buf) - off, len(data))] bytes. *)
Definition copy_at (buf : gostring) (off : Z) (src : gostring)
    : outcome gostring :=
  if (off <? 0) || (len buf <? off) then Panic
  else
    let o := Z.to_nat off in
    let n := ((length buf - o) `min` length src)%nat in
    Ok (take o buf ++ take n src ++ drop (o + n)%nat buf).

(** The body of [for _, f := range fl.fragments], over the fragments in
    the order of the iteration. *)
Fixpoint assemble_loop (totalSize : Z) (buf : gostring) (fs : list fragment)
    : outcome gostring :=
  match fs with
  | [] => Ok buf
  | f :: fs' =>
      if totalSize <=? offset f then Err (ErrOffset (offset f) totalSize)
      else
        buf' ← copy_at buf (offset f) (data f);
        assemble_loop totalSize buf' fs'
  end.

(** The order in which a [range] loop visits the fragments of a map: any
    enumeration of its values. *)
Record map_order : Type := MapOrder {
  range :> gmap Z fragment → list fragment;
  range_perm : ∀ m, range m ≡ₚ (map_to_list m).*2;
}.

Definition key_order : map_order :=
  {| range := λ m, (map_to_list m).*2; range_perm := λ m, reflexivity _ |}.

Definition assemble (o : map_order) (fl : fragmentList) : outcome gostring :=
  buf ← make (fl_totalSize fl);
  buf ← assemble_loop (fl_totalSize fl) buf (o (fragments fl));
  DecodeString buf.

(** ** The tunnel *)

(** [Messages] and [domains] are the values sent on the two channels, oldest
    first; a send appends.  Both channels hold 256 values and a send on a
    full channel waits for the receiver: for [domains] this is part of
    [ServeDNS] below; the receiver of [Messages] is outside [tunnel.go], and
    the steps of [listenDomains] are the ones in which its send goes
    through.  The lock [fgListsLock] is the
    atomicity of the steps below; [Cancel] ends the two loops, and a run is
    the sequence of steps taken before that. *)
Record tunnel : Type := Tunnel {
  Messages : list gostring;
  fgLists : gmap gostring fragmentList;
  topDomain : gostring;
  domains : list gostring;
}.

Definition newTunnel (topDomain : gostring) : tunnel :=
  {| Messages := []; fgLists := ∅; topDomain := topDomain; domains := [] |}.

Definition set_fgLists (m : gmap gostring fragmentList) (tun : tunnel)
    : tunnel :=
  {| Messages := Messages tun; fgLists := m;
     topDomain := topDomain tun; domains := domains tun |}.

(** [totalBytes]: the sum of [len(fg.data)] over the fragments. *)
Definition totalBytes (fs : list fragment) : Z :=
  foldr (λ fg n, n + len (data fg)) 0 fs.

(** The fragment list of [fg.id] after lines 114-124: created if absent,
    then [totalSize], [fragments[fg.offset]] and [expiresAt] assigned. *)
Definition store_fragment (expiration now : Z) (fg : fragment)
    (m : gmap gostring fragmentList) : fragmentList :=
  let fgList := default {| fl_totalSize := 0; fragments := ∅;
                           expiresAt := now + expiration |} (m !! id fg) in
  {| fl_totalSize := totalSize fg;
     fragments := <[offset fg := fg]> (fragments fgList);
     expiresAt := now + expiration |}.

(** The function literal that [listenDomains] runs, under the lock, for one
    [domain] received from [tun.domains]; [now] is what [time.Now()]
    returns.  [None] is a panic of the goroutine.  The two [range] loops of
    the step, the byte count and the one of [assemble], take their order
    from [o]; the byte count is the same in every order
    ([totalBytes_range]). *)
Definition listenDomains_step (expiration : Z) (o : map_order) (now : Z)
    (domain : gostring) (tun : tunnel) : option tunnel :=
  match parseDomain (topDomain tun) domain with
  | Ok fg =>
      let fgList := store_fragment expiration now fg (fgLists tun) in
      let tun := set_fgLists (<[id fg := fgList]> (fgLists tun)) tun in
      if fl_totalSize fgList <=? totalBytes (o (fragments fgList)) then
        match assemble o fgList with
        | Ok msg =>
            Some {| Messages := Messages tun ++ [msg];
                    fgLists := delete (id fg) (fgLists tun);
                    topDomain := topDomain tun; domains := domains tun |}
        | Err _ => Some tun                 (* [log.Println(err); return] *)
        | Panic => None
        end
      else Some tun
  | Err _ => Some tun                       (* [log.Println(err); return] *)
  | Panic => None
  end.

(** The body of the [ticker.C] case of [removeExpiredMessages]. *)
Definition removeExpiredMessages_step (now : Z) (tun : tunnel) : tunnel :=
  set_fgLists
    (filter (λ kv, ¬ expiresAt kv.2 < now) (fgLists tun)) tun.

(** What the two goroutines do, in the order the lock serialises them:
    [listenDomains] receives a domain, or the ticker of
    [removeExpiredMessages] fires. *)
Inductive event : Type :=
  | Domain (o : map_order) (now : Z) (domain : gostring)
  | Tick (now : Z).

Definition step (expiration : Z) (ev : event) (tun : tunnel)
    : option tunnel :=
  match ev with
  | Domain o now domain => listenDomains_step expiration o now domain tun
  | Tick now => Some (removeExpiredMessages_step now tun)
  end.

Fixpoint run (expiration : Z) (evs : list event) (tun : tunnel)
    : option tunnel :=
  match evs with
  | [] => Some tun
  | ev :: evs' => step expiration ev tun ≫= run expiration evs'
  end.

(** ** ServeDNS

    The parts of [github.com/miekg/dns] that [ServeDNS] touches. *)

Definition TypeA : Z := 1.
Definition TypeCNAME : Z := 5.
Definition ClassINET : Z := 1.
Definition RcodeSuccess : Z := 0.

Record Question : Type := {
  Name : gostring;
  Qtype : Z;
  Qclass : Z;
}.

Record RR_Header : Type := {
  Hdr_Name : gostring;
  Rrtype : Z;
  Class : Z;
  Ttl : Z;
}.

(** [dns.RR]; [*dns.CNAME] is the only record [ServeDNS] builds. *)
Inductive RR : Type :=
  | CNAME (Hdr : RR_Header) (Target : gostring).

Record Msg : Type := {
  Id : Z;
  Response : bool;
  Opcode : Z;
  Rcode : Z;
  Questions : list Question;       (* the field [Question] *)
  Answer : list RR;
}.

(** [m := &dns.Msg{}; m.SetReply(r)]: the reply copies the id, the opcode
    and the first question of the request. *)
Definition SetReply (request : Msg) : Msg :=
  {| Id := Id request;
     Response := true;
     Opcode := Opcode request;
     Rcode := RcodeSuccess;
     Questions := take 1 (Questions request);
     Answer := [] |}.

Definition set_Answer (a : list RR) (m : Msg) : Msg :=
  {| Id := Id m; Response := Response m; Opcode := Opcode m;
     Rcode := Rcode m; Questions := Questions m; Answer := a |}.

(** The capacity of the channel [domains]: [make(chan string, 256)]. *)
Definition domainsCap : nat := 256.

(** What a call of [ServeDNS] has done: it has returned, with the tunnel and
    the writer as it leaves them, or it waits in the send
    [tun.domains <- domain], before anything is written. *)
Inductive served : Type :=
  | Returned (tun : tunnel) (w : list Msg)
  | Waiting.

(** [ServeDNS(w, r)].  The [dns.ResponseWriter] is the list of the messages
    handed to [w.WriteMsg], oldest first.  [pending] is the number of names
    that are in the channel [tun.domains] when the handler sends, sent and
    not yet received by [listenDomains]: with [domainsCap] of them the
    channel is full, and the send, which comes before [WriteMsg], waits
    until [listenDomains] receives. *)
Definition ServeDNS (pending : nat) (tun : tunnel) (w : list Msg) (r : Msg)
    : served :=
  match Questions r with
  | [] => Returned tun w                    (* [len(r.Question) < 1] *)
  | q :: _ =>
      let domain := Name q in
      let m := SetReply r in
      let m := set_Answer
        [CNAME {| Hdr_Name := domain; Rrtype := TypeCNAME;
                  Class := ClassINET; Ttl := 0 |}
               (str "blackhole-1.iana.org.")] m in
      if Qtype q =? TypeA then
        if (pending <? domainsCap)%nat then
          Returned {| Messages := Messages tun; fgLists := fgLists tun;
                      topDomain := topDomain tun;
                      domains := domains tun ++ [domain] |}
                   (w ++ [m])
        else Waiting
      else Returned tun (w ++ [m])
  end.

(** ** The sender

    The sender is not in [tunnel.go]; these definitions follow the wire
    format of the specification. *)

(** Modelled from the spec: [enc.EncodeToString] of the sender, base32 of
    RFC 4648 over the alphabet [encoder] with [padChar] for padding: five
    bytes are eight symbols of five bits, most significant bit first. *)
Definition quantum (a b c d e : Z) : list Z :=
  [ a / 8;
    (a mod 8) * 4 + b / 64;
    (b / 2) mod 32;
    (b mod 2) * 16 + c / 16;
    (c mod 16) * 2 + d / 128;
    (d / 4) mod 32;
    (d mod 4) * 8 + e / 32;
    e mod 32 ].

(** Modelled from the spec: the character of the alphabet for a five-bit
    symbol. *)
Definition symbol (i : Z) : ascii := nth (Z.to_nat i) encoder padChar.

(** Modelled from the spec: the eight characters of a quantum of which
    only the first [n] symbols carry data; the rest is padding. *)
Definition symbols (n : nat) (q : list Z) : gostring :=
  (symbol <$> take n q) ++ replicate (8 - n) padChar.

(** Modelled from the spec: the encoding of a payload, five bytes at a time;
    a last group of 1, 2, 3 or 4 bytes gives 2, 4, 5 or 7 symbols. *)
Fixpoint EncodeToString (src : gostring) : gostring :=
  match src with
  | [] => []
  | [a] => symbols 2 (quantum (byte_val a) 0 0 0 0)
  | [a; b] => symbols 4 (quantum (byte_val a) (byte_val b) 0 0 0)
  | [a; b; c] =>
      symbols 5 (quantum (byte_val a) (byte_val b) (byte_val c) 0 0)
  | [a; b; c; d] =>
      symbols 7
        (quantum (byte_val a) (byte_val b) (byte_val c) (byte_val d) 0)
  | a :: b :: c :: d :: e :: src' =>
      symbols 8
        (quantum (byte_val a) (byte_val b) (byte_val c) (byte_val d)
           (byte_val e))
      ++ EncodeToString src'
  end.

(** Modelled from the spec: the decimal digits of a non-negative integer,
    most significant first, as the sender writes [totalSize] and [offset]. *)
Fixpoint digits (fuel : nat) (n : Z) (acc : gostring) : gostring :=
  let acc := byte_of (48 + n mod 10) :: acc in
  match fuel with
  | O => acc
  | S fuel' => if n <? 10 then acc else digits fuel' (n / 10) acc
  end.

(** Modelled from the spec: the decimal numeral of [n]; [log2 n] divisions
    by ten are enough to reach its first digit. *)
Definition Itoa (n : Z) : gostring := digits (Z.to_nat (Z.log2 n)) n [].

(** Modelled from the spec: the query name
    [<id>.<totalSize>.<offset>.<data>.<topDomain>] of one fragment. *)
Definition fragmentDomain (topDomain : gostring) (fg : fragment)
    : gostring :=
  id fg ++ str "." ++ Itoa (totalSize fg) ++ str "." ++ Itoa (offset fg)
  ++ str "." ++ data fg ++ str "." ++ topDomain.

(** Modelled from the spec: the fragments of [blob] cut into [chunks], the
    first one at byte [off]. *)
Fixpoint chunkFragments (id : gostring) (total : Z) (off : Z)
    (chunks : list gostring) : list fragment :=
  match chunks with
  | [] => []
  | c :: chunks' =>
      {| id := id; totalSize := total; offset := off; data := c |}
      :: chunkFragments id total (off + len c) chunks'
  end.

(** ** Vocabulary of the properties *)

(** The query name of the first scenario of the specification. *)
Definition msg1_domain : gostring :=
  str "msg1.8.0.nbuq0000.tunnel.example.com".

(** The answer of [ServeDNS] to a question for [name]. *)
Definition blackhole (name : gostring) : RR :=
  CNAME {| Hdr_Name := name; Rrtype := TypeCNAME; Class := ClassINET;
           Ttl := 0 |}
        (str "blackhole-1.iana.org.").

(** A request with an empty question section. *)
Definition empty_request : Msg :=
  {| Id := 7; Response := false; Opcode := 0; Rcode := 0;
     Questions := []; Answer := [] |}.

(** A request with one question of type A. *)
Definition a_request : Msg :=
  {| Id := 7; Response := false; Opcode := 0; Rcode := 0;
     Questions := [ {| Name := str "msg1.8.0.nbuq0000.tunnel.example.com.";
                       Qtype := TypeA; Qclass := 1 |} ];
     Answer := [] |}.

(** A request with one question of type TXT (16). *)
Definition txt_request : Msg :=
  {| Id := 7; Response := false; Opcode := 0; Rcode := 0;
     Questions := [ {| Name := str "x.tunnel.example.com."; Qtype := 16;
                       Qclass := 1 |} ];
     Answer := [] |}.

(** A query name with offset [-1], for the top domain "t". *)
Definition negative_offset_domain : gostring := str "m.8.-1.aaaaaaaa.t".

(** Decimal numerals: [decimal ds n] when [ds] is a non-empty string of
    decimal digits that denotes [n]. *)
Inductive decimal : gostring → Z → Prop :=
  | decimal_digit (c : ascii) :
      is_digit c = true → decimal [c] (byte_val c - 48)
  | decimal_snoc (ds : gostring) (n : Z) (c : ascii) :
      decimal ds n → is_digit c = true →
      decimal (ds ++ [c]) (n * 10 + (byte_val c - 48)).

(** Decimal numerals with an optional sign. *)
Inductive signed_decimal : gostring → Z → Prop :=
  | signed_none (ds : gostring) (n : Z) :
      decimal ds n → signed_decimal ds n
  | signed_plus (ds : gostring) (n : Z) :
      decimal ds n → signed_decimal ("+"%char :: ds) n
  | signed_minus (ds : gostring) (n : Z) :
      decimal ds n → signed_decimal ("-"%char :: ds) (- n).

(** A label "parses as a non-negative integer". *)
Definition parses_nonneg (s : gostring) : Prop :=
  ∃ n, signed_decimal s n ∧ 0 ≤ n.

(** A fragment of ten bytes at offset [-1], for a buffer of eight. *)
Definition overlong_negative : fragment :=
  {| id := str "m"; totalSize := 8; offset := -1; data := str "aaaaaaaaaa" |}.

(** [fl] with [expiresAt] set to [t]. *)
Definition refreshed (fl : fragmentList) (t : Z) : fragmentList :=
  {| fl_totalSize := fl_totalSize fl; fragments := fragments fl;
     expiresAt := t |}.

(** [ev] brings no fragment of the transfer [id0]. *)
Definition untouched (top id0 : gostring) (ev : event) : Prop :=
  match ev with
  | Domain _ _ d => ∀ fg, parseDomain top d = Ok fg → id fg ≠ id0
  | Tick _ => True
  end.

(** The tunnel without the fragment list of [id0]. *)
Definition without (id0 : gostring) (tun : tunnel) : tunnel :=
  set_fgLists (delete id0 (fgLists tun)) tun.

(** [f] carries the bytes of [blob] that start at its offset, at least one. *)
Definition placed (blob : gostring) (f : fragment) : Prop :=
  0 ≤ offset f ∧ data f ≠ []
  ∧ take (length (data f)) (drop (Z.to_nat (offset f)) blob) = data f.

(** Byte [i] of the buffer is written by [f]. *)
Definition covers (f : fragment) (i : nat) : Prop :=
  (Z.to_nat (offset f) ≤ i < Z.to_nat (offset f) + length (data f))%nat.

(** The map [fragments] after the fragments [fs] were stored, the first of
    the list last. *)
Definition fragment_map (fs : list fragment) : gmap Z fragment :=
  list_to_map ((λ f, (offset f, f)) <$> fs).

(** The queries of a list of fragments, each with the time at which it is
    received and the order in which its step iterates. *)
Definition queries (top : gostring) (todo : list (map_order * Z * fragment))
    : list event :=
  (λ q, Domain q.1.1 q.1.2 (fragmentDomain top q.2)) <$> todo.

(** The fragments of the transfer of payload [P] under [id0], the encoded
    payload cut into [chunks]. *)
Definition transfer (id0 P : gostring) (chunks : list gostring)
    : list fragment :=
  chunkFragments id0 (len (EncodeToString P)) 0 chunks.

(** [strings.Join(labels, sep)] for a one-byte separator. *)
Fixpoint JoinSep (labels : list gostring) (sep : ascii) : gostring :=
  match labels with
  | [] => []
  | l :: ls =>
      match ls with
      | [] => l
      | _ => l ++ sep :: JoinSep ls sep
      end
  end.

(** Every stored fragment has an offset that is not negative. *)
Definition nonneg_store (tun : tunnel) : Prop :=
  ∀ k fl off f,
    fgLists tun !! k = Some fl → fragments fl !! off = Some f → 0 ≤ offset f.

(** [ev] is no query name with a negative [totalSize] or offset. *)
Definition nonneg_event (top : gostring) (ev : event) : Prop :=
  match ev with
  | Domain _ _ d =>
      ∀ fg, parseDomain top d = Ok fg → 0 ≤ totalSize fg ∧ 0 ≤ offset fg
  | Tick _ => True
  end.

(** The shape of the store: a fragment list is not empty, each of its
    fragments is stored under its own offset in the list of its own id, and
    the [totalSize] of the list is the one that one of them declares. *)
Definition store_ok (tun : tunnel) : Prop :=
  ∀ k fl, fgLists tun !! k = Some fl →
    (∀ off f, fragments fl !! off = Some f → id f = k ∧ offset f = off)
    ∧ ∃ off f, fragments fl !! off = Some f ∧ totalSize f = fl_totalSize fl.

(** [ev] is a query name received by [listenDomains]. *)
Definition is_Domain (ev : event) : bool :=
  match ev with
  | Domain _ _ _ => true
  | Tick _ => false
  end.

(** The copies of [f] and [g] into a buffer of [n] bytes write the same byte
    wherever both write. *)
Definition agree (n : nat) (f g : fragment) : Prop :=
  ∀ i, (i < n)%nat → covers f i → covers g i →
    data f !! (i - Z.to_nat (offset f))%nat
    = data g !! (i - Z.to_nat (offset g))%nat.

(** The iteration that visits a map from its last key to its first. *)
Definition rev_order : map_order :=
  {| range := λ m, reverse (map_to_list m).*2;
     range_perm := λ m, reverse_Permutation _ |}.

(** What a tunnel receives during a transfer: a fragment of the transfer,
    with the time at which it is received and the order in which its step
    iterates, or a tick of the sweeper, with its time. *)
Inductive delivery : Type :=
  | Deliver (o : map_order) (now : Z) (f : fragment)
  | Sweep (now : Z).

(** The fragments that [ds] brings. *)
Fixpoint delivered (ds : list delivery) : list fragment :=
  match ds with
  | [] => []
  | Deliver _ _ f :: ds' => f :: delivered ds'
  | Sweep _ :: ds' => delivered ds'
  end.

(** The events of [ds]: the query names of the fragments, and the ticks. *)
Definition deliveries (top : gostring) (ds : list delivery) : list event :=
  (λ d, match d with
        | Deliver o now f => Domain o now (fragmentDomain top f)
        | Sweep now => Tick now
        end) <$> ds.

(** No sweep of [ds] that comes between two fragments is later than
    [expiration] after the fragment received before it; [last] is the time
    of the last fragment received before [ds], if any. *)
Fixpoint timely (expiration : Z) (last : option Z) (ds : list delivery)
    : Prop :=
  match ds with
  | [] => True
  | Deliver _ now _ :: ds' => timely expiration (Some now) ds'
  | Sweep t :: ds' =>
      (∀ now, last = Some now → delivered ds' ≠ [] → t ≤ now + expiration)
      ∧ timely expiration last ds'
  end.

(** The tunnel after the sweeps of [ds] alone. *)
Fixpoint swept (ds : list delivery) (tun : tunnel) : tunnel :=
  match ds with
  | [] => tun
  | Deliver _ _ _ :: ds' => swept ds' tun
  | Sweep t :: ds' => swept ds' (removeExpiredMessages_step t tun)
  end.

(** * Properties *)

Lemma bind_Ok {A B} (a : A) (k : A → outcome B) : Ok a ≫= k = k a.
Proof. reflexivity. Qed.

(** ** Iteration over a map *)

Lemma range_empty (o : map_order) : o ∅ = [].
Proof.
  apply Permutation_nil_r. rewrite (range_perm o), map_to_list_empty. done.
Qed.

Lemma range_singleton (o : map_order) (k : Z) (f : fragment) :
  o {[k := f]} = [f].
Proof.
  apply Permutation_singleton_r.
  rewrite (range_perm o), map_to_list_singleton. done.
Qed.

Lemma totalBytes_cons (f : fragment) (fs : list fragment) :
  totalBytes (f :: fs) = totalBytes fs + len (data f).
Proof. reflexivity. Qed.

Lemma totalBytes_app (fs gs : list fragment) :
  totalBytes (fs ++ gs) = totalBytes fs + totalBytes gs.
Proof.
  induction fs as [|f fs IH]; simpl; [lia|]. rewrite IH. lia.
Qed.

Lemma totalBytes_perm (fs gs : list fragment) :
  fs ≡ₚ gs → totalBytes fs = totalBytes gs.
Proof.
  induction 1; simpl; lia.
Qed.

(** The byte count of [listenDomains] does not depend on the order of the
    iteration. *)
Lemma totalBytes_range (o : map_order) (m : gmap Z fragment) :
  totalBytes (o m) = totalBytes (map_to_list m).*2.
Proof. apply totalBytes_perm, range_perm. Qed.

Lemma totalBytes_nonneg (fs : list fragment) : 0 ≤ totalBytes fs.
Proof. induction fs; simpl; unfold len in *; lia. Qed.

(** ** C2: the concrete scenario *)

(** C2.  With top domain "tunnel.example.com", the query name
    "msg1.8.0.nbuq0000.tunnel.example.com", received by a tunnel that holds
    no fragments of "msg1", sends the payload "hi" on [Messages], once, and
    leaves no entry for "msg1" in [fgLists]; all other entries are kept. *)
Theorem scenario_msg1 (expiration : Z) (o : map_order) (now : Z)
    (tun : tunnel) :
  topDomain tun = str "tunnel.example.com" →
  fgLists tun !! str "msg1" = None →
  listenDomains_step expiration o now msg1_domain tun
  = Some {| Messages := Messages tun ++ [str "hi"];
            fgLists := fgLists tun;
            topDomain := topDomain tun;
            domains := domains tun |}.
Proof.
  intros Htop Hnone. unfold listenDomains_step. rewrite Htop.
  replace (parseDomain _ msg1_domain)
    with (Ok {| id := str "msg1"; totalSize := 8; offset := 0;
                data := str "nbuq0000" |}) by (vm_compute; done).
  unfold store_fragment. cbn [id totalSize offset data].
  rewrite Hnone. cbn [default fragments fl_totalSize].
  rewrite insert_empty.
  unfold assemble. cbn [fl_totalSize fragments].
  rewrite range_singleton.
  replace (8 <=? totalBytes _) with true by (vm_compute; done).
  replace (make 8 ≫= _) with (Ok (A:=gostring) (str "hi"))
    by (vm_compute; done).
  cbn [set_fgLists fgLists Messages topDomain domains].
  rewrite delete_insert_id by done. by rewrite Htop.
Qed.

Lemma scenario_msg1_witness :
  listenDomains_step 30 key_order 0 msg1_domain
    (newTunnel (str "tunnel.example.com"))
  = Some {| Messages := [str "hi"]; fgLists := ∅;
            topDomain := str "tunnel.example.com"; domains := [] |}.
Proof.
  apply (scenario_msg1 30 key_order 0 (newTunnel (str "tunnel.example.com")));
    reflexivity.
Defined.

(** ** C6: the responder *)

(** C6, as stated, fails: a request without a question is answered by no
    response at all ([ServeDNS] returns before it builds one), and a
    request with a type A question that arrives while the channel [domains]
    is full gets no response as long as the channel stays full (the handler
    waits in the send, which comes before [WriteMsg]). *)
Lemma ServeDNS_no_response :
  let tun := newTunnel (str "tunnel.example.com") in
  ServeDNS 0 tun [] empty_request = Returned tun []
  ∧ (∀ pending, ¬ ∃ tun' m,
       ServeDNS pending tun [] empty_request = Returned tun' ([] ++ [m]))
  ∧ ServeDNS 256 tun [] a_request = Waiting.
Proof.
  intros tun. split; [reflexivity|]. split; [|reflexivity].
  intros pending (tun' & m & H). discriminate H.
Qed.

(** C6, amended.  For every request that carries at least one question:
    when the first question is not of type A, or when the channel [domains]
    has room, [ServeDNS] hands exactly one message to the writer, a reply
    (same id, [RcodeSuccess]) whose only answer is the CNAME to
    "blackhole-1.iana.org." with TTL 0, named as the first question; the
    name of that question is sent on [domains] when its type is [TypeA], and
    nothing is sent when it is not; the fragment store and [Messages] are
    not touched.  When the first question is of type A and the channel is
    full, the handler waits in the send and nothing is written. *)
Theorem ServeDNS_one_answer (pending : nat) (tun : tunnel) (w : list Msg)
    (r : Msg) (q : Question) (qs : list Question) :
  Questions r = q :: qs →
  (Qtype q ≠ TypeA ∨ (pending < domainsCap)%nat →
   ∃ (tun' : tunnel) (m : Msg),
     ServeDNS pending tun w r = Returned tun' (w ++ [m])
     ∧ Answer m = [blackhole (Name q)]
     ∧ Id m = Id r ∧ Response m = true ∧ Rcode m = RcodeSuccess
     ∧ Questions m = [q]
     ∧ (Qtype q = TypeA → domains tun' = domains tun ++ [Name q])
     ∧ (Qtype q ≠ TypeA → domains tun' = domains tun)
     ∧ fgLists tun' = fgLists tun ∧ Messages tun' = Messages tun
     ∧ topDomain tun' = topDomain tun)
  ∧ (Qtype q = TypeA → (domainsCap ≤ pending)%nat →
     ServeDNS pending tun w r = Waiting).
Proof.
  intros Hq. unfold ServeDNS. rewrite Hq. split.
  - intros Hroom.
    destruct (Z.eqb_spec (Qtype q) TypeA) as [HA|HA].
    + destruct (Nat.ltb_spec pending domainsCap) as [Hlt|Hge];
        [|destruct Hroom; [done|lia]].
      eexists _, _. split; [reflexivity|].
      cbn. rewrite Hq. by repeat split.
    + eexists _, _. split; [reflexivity|].
      cbn. rewrite Hq. by repeat split.
  - intros HA Hfull. rewrite HA, Z.eqb_refl.
    destruct (Nat.ltb_spec pending domainsCap); [lia | done].
Qed.

Lemma ServeDNS_one_answer_witness :
  let tun := newTunnel (str "tunnel.example.com") in
  (∃ (tun' : tunnel) (m : Msg),
     ServeDNS 255 tun [] a_request = Returned tun' ([] ++ [m])
     ∧ Answer m = [blackhole (str "msg1.8.0.nbuq0000.tunnel.example.com.")]
     ∧ domains tun' = [] ++ [str "msg1.8.0.nbuq0000.tunnel.example.com."])
  ∧ (∃ (tun' : tunnel) (m : Msg),
       ServeDNS 256 tun [] txt_request = Returned tun' ([] ++ [m])
       ∧ Answer m = [blackhole (str "x.tunnel.example.com.")]
       ∧ domains tun' = []).
Proof.
  intros tun. split.
  - destruct (ServeDNS_one_answer 255 tun [] a_request _ _ eq_refl)
      as [H _].
    destruct H as (tun' & m & H1 & H2 & _ & _ & _ & _ & H3 & _).
    + right. vm_compute. lia.
    + exists tun', m. split; [exact H1|]. split; [exact H2|].
      apply H3. reflexivity.
  - destruct (ServeDNS_one_answer 256 tun [] txt_request _ _ eq_refl)
      as [H _].
    destruct H as (tun' & m & H1 & H2 & _ & _ & _ & _ & _ & H3 & _).
    + left. discriminate.
    + exists tun', m. split; [exact H1|]. split; [exact H2|].
      apply H3. discriminate.
Defined.

(** ** C9: bounds of the writes of [assemble] *)

(** C9, at a query name that [parseDomain] accepts: its fragment has offset
    [-1], which passes the guard [f.offset >= fl.totalSize] of [assemble];
    the slice expression [buf[f.offset:]] then panics, and with it the
    goroutine of [listenDomains]. *)
Theorem negative_offset_panics (expiration : Z) (o : map_order) (now : Z) :
  let fg := {| id := str "m"; totalSize := 8; offset := -1;
               data := str "aaaaaaaa" |} in
  parseDomain (str "t") negative_offset_domain = Ok fg
  ∧ (totalSize fg <=? offset fg) = false
  ∧ assemble o {| fl_totalSize := 8; fragments := {[ -1 := fg ]};
                  expiresAt := now + expiration |} = Panic
  ∧ listenDomains_step expiration o now negative_offset_domain
      (newTunnel (str "t")) = None.
Proof.
  intros fg. split; [by vm_compute|]. split; [done|].
  assert (Hasm : assemble o {| fl_totalSize := 8; fragments := {[ -1 := fg ]};
                               expiresAt := now + expiration |} = Panic).
  { unfold assemble. cbn [fl_totalSize fragments].
    rewrite range_singleton. done. }
  split; [exact Hasm|].
  unfold listenDomains_step. cbn [newTunnel topDomain].
  replace (parseDomain _ negative_offset_domain) with (Ok fg)
    by (vm_compute; done).
  unfold store_fragment. cbn [newTunnel fgLists id totalSize offset fg].
  rewrite lookup_empty. cbn [default fragments fl_totalSize].
  rewrite insert_empty, Hasm, range_singleton. done.
Qed.

(** [make] and the slice expression are the only places where [assemble]
    can panic: with a non-negative size and non-negative offsets it
    returns. *)
Lemma copy_at_length (buf : gostring) (off : Z) (src buf' : gostring) :
  copy_at buf off src = Ok buf' → length buf' = length buf.
Proof.
  unfold copy_at, len. case_match; [done|]. intros [= <-].
  rewrite !length_app, !length_take, length_drop. lia.
Qed.

Lemma copy_at_in_range (buf : gostring) (off : Z) (src : gostring) :
  0 ≤ off ≤ len buf → ∃ buf', copy_at buf off src = Ok buf'.
Proof.
  intros H. unfold copy_at.
  replace ((off <? 0) || (len buf <? off)) with false by lia. eauto.
Qed.

Lemma assemble_loop_in_range (total : Z) (fs : list fragment)
    (buf : gostring) :
  len buf = total →
  Forall (λ f, 0 ≤ offset f) fs →
  assemble_loop total buf fs ≠ Panic.
Proof.
  intros Hlen Hfs. revert buf Hlen.
  induction Hfs as [|f fs Hf _ IH]; intros buf Hlen; [done|].
  simpl. case_match; [done|].
  destruct (copy_at_in_range buf (offset f) (data f)) as [buf' Hbuf];
    [lia|].
  rewrite Hbuf. simpl. apply IH.
  unfold len in *. by rewrite (copy_at_length _ _ _ _ Hbuf).
Qed.

(** ** C3: what [parseDomain] rejects *)

Lemma digits_value_snoc (n : Z) (ds : gostring) (c : ascii) :
  digits_value n (ds ++ [c])
  = digits_value n ds ≫= λ m,
      if is_digit c then Some (m * 10 + (byte_val c - 48)) else None.
Proof.
  revert n. induction ds as [|d ds IH]; intros n; simpl.
  - by destruct (is_digit c).
  - destruct (is_digit d); [apply IH | done].
Qed.

Lemma decimal_digits_value (ds : gostring) (n : Z) :
  decimal ds n ↔ ds ≠ [] ∧ digits_value 0 ds = Some n.
Proof.
  split.
  - induction 1 as [c Hc | ds n c _ [_ IH] Hc].
    + split; [done|]. simpl. by rewrite Hc.
    + split; [by destruct ds|].
      rewrite digits_value_snoc, IH. simpl. by rewrite Hc.
  - revert n. induction ds as [|c ds IH] using rev_ind; intros n [Hne Hv];
      [done|].
    rewrite digits_value_snoc in Hv.
    destruct (digits_value 0 ds) as [m|] eqn:Hm; [|done].
    simpl in Hv. destruct (is_digit c) eqn:Hc; [|done].
    injection Hv as <-.
    destruct ds as [|d ds].
    + simpl in Hm. injection Hm as <-. simpl. by constructor.
    + constructor; [|done]. by apply IH.
Qed.

Lemma decimal_head_digit (ds : gostring) (n : Z) :
  decimal ds n → ∃ c ds', ds = c :: ds' ∧ is_digit c = true.
Proof.
  induction 1 as [c Hc | ds n c _ (d & ds' & -> & Hd) _]; simpl; eauto.
Qed.

(** [Atoi] returns [v] exactly on the signed decimal numerals of the
    integers [v] of the range of [int]. *)
Lemma Atoi_Ok (s : gostring) (v : Z) :
  Atoi s = Ok v ↔ signed_decimal s v ∧ minInt ≤ v ≤ maxInt.
Proof.
  split.
  - unfold Atoi. intros H.
    destruct s as [|c s]; [done|].
    repeat case_bool_decide; subst.
    + destruct s as [|d s]; [done|].
      destruct (digits_value 0 (d :: s)) as [n|] eqn:Hn; [|done].
      case_match; [|done]. injection H as <-.
      split; [|lia]. apply signed_minus. by apply decimal_digits_value.
    + destruct s as [|d s]; [done|].
      destruct (digits_value 0 (d :: s)) as [n|] eqn:Hn; [|done].
      case_match; [|done]. injection H as <-.
      split; [|lia]. apply signed_plus. by apply decimal_digits_value.
    + destruct (digits_value 0 (c :: s)) as [n|] eqn:Hn; [|done].
      case_match; [|done]. injection H as <-.
      split; [|lia]. apply signed_none. by apply decimal_digits_value.
  - intros [Hs Hv]. unfold Atoi.
    destruct Hs as [ds n Hd | ds n Hd | ds n Hd].
    + destruct (decimal_head_digit _ _ Hd) as (c & ds' & -> & Hc).
      apply decimal_digits_value in Hd as [_ Hd].
      assert (c ≠ "-"%char) by (intros ->; by vm_compute in Hc).
      assert (c ≠ "+"%char) by (intros ->; by vm_compute in Hc).
      rewrite !bool_decide_eq_false_2 by done. cbv beta iota zeta.
      rewrite Hd.
      replace ((minInt <=? n) && (n <=? maxInt)) with true by lia. done.
    + destruct (decimal_head_digit _ _ Hd) as (c & ds' & -> & Hc).
      apply decimal_digits_value in Hd as [_ Hd].
      rewrite bool_decide_eq_false_2 by done.
      rewrite bool_decide_eq_true_2 by done. cbv beta iota zeta.
      rewrite Hd.
      replace ((minInt <=? n) && (n <=? maxInt)) with true by lia. done.
    + destruct (decimal_head_digit _ _ Hd) as (c & ds' & -> & Hc).
      apply decimal_digits_value in Hd as [_ Hd].
      rewrite bool_decide_eq_true_2 by done. cbv beta iota zeta.
      rewrite Hd.
      replace ((minInt <=? - n) && (- n <=? maxInt)) with true by lia. done.
Qed.

Lemma Atoi_no_panic (s : gostring) : Atoi s ≠ Panic.
Proof.
  unfold Atoi. repeat (case_match; try done).
Qed.

Lemma Atoi_Err (s : gostring) :
  is_Err (Atoi s) ↔ ¬ ∃ v, signed_decimal s v ∧ minInt ≤ v ≤ maxInt.
Proof.
  split.
  - intros [e He] (v & Hv). apply Atoi_Ok in Hv. congruence.
  - intros Hno. destruct (Atoi s) as [v|e|] eqn:Hs.
    + destruct Hno. exists v. by apply Atoi_Ok.
    + by exists e.
    + by destruct (Atoi_no_panic s).
Qed.

Lemma parseDomain_no_panic (top domain : gostring) :
  parseDomain top domain ≠ Panic.
Proof.
  unfold parseDomain. case_match; [done|].
  destruct (Split _ _) as [|l0 [|l1 [|l2 [|l3 rest]]]]; try done.
  destruct (Atoi l1) eqn:H1; simpl; [|done|by destruct (Atoi_no_panic l1)].
  destruct (Atoi l2) eqn:H2; simpl; [done|done|by destruct (Atoi_no_panic l2)].
Qed.

(** C3, at the query name "a.-1.0.x.t" for the top domain "t": label 1 is
    "-1", which does not parse as a non-negative integer, and [parseDomain]
    returns no error but a fragment whose [totalSize] is [-1]. *)
Lemma parseDomain_accepts_negative :
  Split (TrimSuffix (str "a.-1.0.x.t") (str "." ++ str "t")) "."%char
    = [str "a"; str "-1"; str "0"; str "x"]
  ∧ ¬ parses_nonneg (str "-1")
  ∧ parseDomain (str "t") (str "a.-1.0.x.t")
    = Ok {| id := str "a"; totalSize := -1; offset := 0; data := str "x" |}.
Proof.
  split; [by vm_compute|]. split; [|by vm_compute].
  intros (n & Hn & Hpos).
  assert (Atoi (str "-1") = Ok n) as Hat.
  { apply Atoi_Ok. split; [done|].
    assert (Atoi (str "-1") = Ok (-1)) as H1 by (by vm_compute).
    apply Atoi_Ok in H1 as [H1 _].
    inversion Hn as [ds m Hd | ds m Hd | ds m Hd]; subst.
    - apply decimal_digits_value in Hd as [_ Hd]. by vm_compute in Hd.
    - apply decimal_digits_value in Hd as [_ Hd].
      vm_compute in Hd. injection Hd as <-. by vm_compute. }
  vm_compute in Hat. injection Hat as <-. lia.
Qed.

(** X1.  What [parseDomain] does reject, and what a rejected query name
    does.
    [parseDomain] returns an error exactly when the query name does not end
    with "." and the top domain, or the rest splits into fewer than 4
    labels, or [strconv.Atoi] rejects label 1 or label 2; [Atoi] rejects
    exactly the strings that are not a decimal numeral, with an optional
    sign, of an integer in the range of [int].  A query name on which
    [parseDomain] returns an error leaves the tunnel as it is: no entry of
    [fgLists] changes and nothing is sent on [Messages]. *)
Theorem parseDomain_errors (expiration : Z) (o : map_order) (now : Z)
    (domain : gostring) (tun : tunnel) :
  let top := topDomain tun in
  let labels := Split (TrimSuffix domain (str "." ++ top)) "."%char in
  let rejected (s : gostring) :=
    ¬ ∃ v, signed_decimal s v ∧ minInt ≤ v ≤ maxInt in
  (is_Err (parseDomain top domain) ↔
     HasSuffix domain (str "." ++ top) = false
     ∨ (length labels < 4)%nat
     ∨ rejected (labels !!! 1%nat)
     ∨ rejected (labels !!! 2%nat))
  ∧ (is_Err (parseDomain top domain) →
     listenDomains_step expiration o now domain tun = Some tun).
Proof.
  intros top labels rejected. split.
  - unfold parseDomain. fold top. fold labels.
    destruct (HasSuffix domain (str "." ++ top)) eqn:Hsuf; simpl.
    2:{ split; [by left | intros _; by eexists]. }
    destruct labels as [|l0 [|l1 [|l2 [|l3 rest]]]] eqn:Hl; simpl;
      try (split; [intros _; right; left; lia | intros _; by eexists]).
    unfold rejected. rewrite <- !Atoi_Err.
    destruct (Atoi l1) as [v1|e1|] eqn:H1; simpl.
    + destruct (Atoi l2) as [v2|e2|] eqn:H2; simpl.
      * split; [by intros [e He]|].
        intros [?|[?|[[e He]|[e He]]]]; first [done | lia].
      * split; [intros _; do 3 right; by eexists | intros _; by eexists].
      * by destruct (Atoi_no_panic l2).
    + split; [intros _; do 2 right; left; by eexists | intros _; by eexists].
    + by destruct (Atoi_no_panic l1).
  - intros [e He]. unfold listenDomains_step. fold top. by rewrite He.
Qed.

Lemma parseDomain_errors_witness :
  is_Err (parseDomain (str "t") (str "a.8.x.nbuq0000.t"))
  ∧ listenDomains_step 30 key_order 0 (str "a.8.x.nbuq0000.t")
      (newTunnel (str "t")) = Some (newTunnel (str "t")).
Proof.
  destruct (parseDomain_errors 30 key_order 0 (str "a.8.x.nbuq0000.t")
              (newTunnel (str "t"))) as [H1 H2].
  assert (is_Err (parseDomain (str "t") (str "a.8.x.nbuq0000.t"))) as He.
  { apply H1. do 3 right. apply Atoi_Err. eexists. by vm_compute. }
  split; [exact He | exact (H2 He)].
Defined.

(** ** Errors of [assemble], and the sweep *)

Lemma copy_at_no_Err (buf : gostring) (off : Z) (src : gostring) (e : error) :
  copy_at buf off src ≠ Err e.
Proof. unfold copy_at. by case_match. Qed.

Lemma assemble_loop_Err (total : Z) (fs : list fragment) (buf : gostring)
    (e : error) :
  assemble_loop total buf fs = Err e →
  ∃ f, f ∈ fs ∧ total ≤ offset f ∧ e = ErrOffset (offset f) total.
Proof.
  revert buf. induction fs as [|f fs IH]; intros buf; simpl; [done|].
  destruct (Z.leb_spec total (offset f)) as [Hle|Hlt].
  - intros [= <-]. exists f. split; [left|done].
  - destruct (copy_at buf (offset f) (data f)) as [buf'| e' |] eqn:Hc;
      simpl; [|by destruct (copy_at_no_Err _ _ _ _ Hc)|done].
    intros (g & Hg & ?)%IH. exists g. split; [by right|done].
Qed.

Lemma decode_Err (src : gostring) (dbuf : list Z) (j : nat) (e : error) :
  decode dbuf j src = Err e → e = ErrCorruptInput.
Proof.
  revert dbuf j. induction src as [|c src IH]; intros dbuf j; simpl.
  - case_match; congruence.
  - repeat (case_match; try congruence);
      first [ apply IH
            | destruct (decode _ _ src) eqn:Hd; simpl; try congruence;
              intros [= <-]; by eapply IH ].
Qed.

Lemma decode_no_panic (src : gostring) (dbuf : list Z) (j : nat) :
  decode dbuf j src ≠ Panic.
Proof.
  revert dbuf j. induction src as [|c src IH]; intros dbuf j; simpl.
  - by case_match.
  - repeat (case_match; try done);
      first [ apply IH
            | destruct (decode _ _ src) eqn:Hd; simpl; try done;
              by destruct (IH _ _ Hd) ].
Qed.

Lemma make_no_Err (n : Z) (e : error) : make n ≠ Err e.
Proof. unfold make. by case_match. Qed.

Lemma assemble_Err (o : map_order) (fl : fragmentList) (e : error) :
  assemble o fl = Err e →
  e = ErrCorruptInput
  ∨ ∃ f, f ∈ (map_to_list (fragments fl)).*2
         ∧ fl_totalSize fl ≤ offset f
         ∧ e = ErrOffset (offset f) (fl_totalSize fl).
Proof.
  unfold assemble.
  destruct (make (fl_totalSize fl)) as [buf|e'|] eqn:Hm; simpl;
    [|by destruct (make_no_Err _ _ Hm)|done].
  destruct (assemble_loop _ buf _) as [buf'|e'|] eqn:Hl; simpl; [| |done].
  - intros ?%decode_Err. by left.
  - intros [= <-]. right.
    apply assemble_loop_Err in Hl as (f & Hf & ?).
    exists f. split; [|done]. by rewrite <- (range_perm o).
Qed.

(** The sweep keeps exactly the entries that have not expired. *)
Lemma removeExpired_lookup (now : Z) (tun : tunnel) (k : gostring)
    (fl : fragmentList) :
  fgLists (removeExpiredMessages_step now tun) !! k = Some fl
  ↔ fgLists tun !! k = Some fl ∧ ¬ expiresAt fl < now.
Proof.
  unfold removeExpiredMessages_step. cbn [set_fgLists fgLists].
  by rewrite map_lookup_filter_Some.
Qed.

Lemma removeExpired_lookup_None (now : Z) (tun : tunnel) (k : gostring) :
  fgLists (removeExpiredMessages_step now tun) !! k = None
  ↔ fgLists tun !! k = None
    ∨ ∃ fl, fgLists tun !! k = Some fl ∧ expiresAt fl < now.
Proof.
  unfold removeExpiredMessages_step. cbn [set_fgLists fgLists].
  rewrite map_lookup_filter_None. split.
  - intros [?|H]; [by left|].
    destruct (fgLists tun !! k) as [fl|] eqn:Hk; [|by left].
    right. exists fl. split; [done|].
    destruct (decide (expiresAt fl < now)); [done|]. by destruct (H fl).
  - intros [?|(fl & Hk & Hlt)]; [by left|].
    right. intros fl' ?. simplify_eq/=. lia.
Qed.

(** ** C4 and C7: completion *)

(** The fragment list of an id once a fragment is stored, and the byte
    count of the step, written out. *)
Lemma store_fragment_eq (expiration now : Z) (fg : fragment)
    (m : gmap gostring fragmentList) :
  store_fragment expiration now fg m
  = {| fl_totalSize := totalSize fg;
       fragments := <[offset fg := fg]> (default ∅ (fragments <$> m !! id fg));
       expiresAt := now + expiration |}.
Proof. unfold store_fragment. by destruct (m !! id fg). Qed.

Lemma totalBytes_sum_list (fs : list fragment) :
  totalBytes fs = Z.of_nat (sum_list ((λ f, length (data f)) <$> fs)).
Proof.
  induction fs as [|f fs IH]; [done|].
  rewrite totalBytes_cons, IH, fmap_cons. cbn [sum_list_with].
  unfold Datatypes.id, len. lia.
Qed.

Section completion.
Context (expiration : Z) (o : map_order) (now : Z).
Context (domain : gostring) (tun : tunnel) (fg : fragment).
Hypothesis Hparse : parseDomain (topDomain tun) domain = Ok fg.

(** The fragment list of [fg.id] once [fg] is stored, the map that holds
    it, and the bytes it holds. *)
Let fgList : fragmentList :=
  store_fragment expiration now fg (fgLists tun).
Let stored : gmap gostring fragmentList :=
  <[id fg := fgList]> (fgLists tun).
Let sum : Z := totalBytes (map_to_list (fragments fgList)).*2.

Lemma step_incomplete :
  sum < fl_totalSize fgList →
  listenDomains_step expiration o now domain tun
  = Some (set_fgLists stored tun).
Proof.
  intros Hlt. unfold listenDomains_step. rewrite Hparse.
  fold fgList. rewrite totalBytes_range. fold sum.
  by replace (fl_totalSize fgList <=? sum) with false by lia.
Qed.

Lemma step_complete :
  fl_totalSize fgList ≤ sum →
  listenDomains_step expiration o now domain tun
  = match assemble o fgList with
    | Ok msg =>
        Some {| Messages := Messages tun ++ [msg];
                fgLists := delete (id fg) (fgLists tun);
                topDomain := topDomain tun; domains := domains tun |}
    | Err _ => Some (set_fgLists stored tun)
    | Panic => None
    end.
Proof.
  intros Hle. unfold listenDomains_step. rewrite Hparse.
  fold fgList. rewrite totalBytes_range. fold sum.
  replace (fl_totalSize fgList <=? sum) with true by lia.
  destruct (assemble o fgList); try done.
  cbn [set_fgLists fgLists Messages topDomain domains].
  by rewrite delete_insert_eq.
Qed.
End completion.

(** C4.  Let [fg] be the fragment of a received query name.  The step
    stores it under its offset in the fragment list of its id ([held]: the
    fragments that the list held before, with [fg] put at [offset fg]),
    and the list takes the [totalSize] that [fg] declares.  [sum] is the
    sum of the lengths of the [data] of the fragments held then, [fg]
    included.  When [sum] is below that [totalSize], the step only keeps
    the list: nothing is sent, whatever [assemble] would return.  When
    [sum] has reached it, the step is decided by [assemble] on the list: a
    payload is sent on [Messages] and, in the same step, the entry of the
    id is deleted; an error leaves the list stored and sends nothing.  And
    whenever the step sends something, [sum] has reached [totalSize], what
    is sent is the payload of [assemble], and the entry is gone. *)
Theorem completion_predicate (expiration : Z) (o : map_order) (now : Z)
    (domain : gostring) (tun : tunnel) (fg : fragment) :
  parseDomain (topDomain tun) domain = Ok fg →
  let held : gmap Z fragment :=
    <[offset fg := fg]> (default ∅ (fragments <$> fgLists tun !! id fg)) in
  let fgList : fragmentList :=
    {| fl_totalSize := totalSize fg; fragments := held;
       expiresAt := now + expiration |} in
  let sum : Z :=
    Z.of_nat (sum_list ((λ f, length (data f)) <$> (map_to_list held).*2)) in
  let kept : tunnel :=
    {| Messages := Messages tun;
       fgLists := <[id fg := fgList]> (fgLists tun);
       topDomain := topDomain tun; domains := domains tun |} in
  (sum < totalSize fg →
   listenDomains_step expiration o now domain tun = Some kept)
  ∧ (totalSize fg ≤ sum →
     listenDomains_step expiration o now domain tun
     = match assemble o fgList with
       | Ok msg =>
           Some {| Messages := Messages tun ++ [msg];
                   fgLists := delete (id fg) (fgLists tun);
                   topDomain := topDomain tun; domains := domains tun |}
       | Err _ => Some kept
       | Panic => None
       end)
  ∧ (∀ tun', listenDomains_step expiration o now domain tun = Some tun' →
     Messages tun' ≠ Messages tun →
     totalSize fg ≤ sum
     ∧ fgLists tun' !! id fg = None
     ∧ ∃ msg, assemble o fgList = Ok msg
              ∧ Messages tun' = Messages tun ++ [msg]).
Proof.
  intros Hparse held fgList sum kept.
  pose proof (step_incomplete expiration o now domain tun fg Hparse) as Hlow.
  pose proof (step_complete expiration o now domain tun fg Hparse) as Hhigh.
  rewrite totalBytes_sum_list, store_fragment_eq in Hlow, Hhigh.
  cbn [fl_totalSize fragments] in Hlow, Hhigh.
  fold held in Hlow, Hhigh. fold fgList in Hlow, Hhigh.
  fold sum in Hlow, Hhigh.
  split; [exact Hlow|]. split; [exact Hhigh|].
  intros tun' Hstep Hsent.
  destruct (decide (totalSize fg ≤ sum)) as [Hle|Hlt].
  - split; [done|]. rewrite Hhigh in Hstep by done.
    destruct (assemble o fgList) as [msg|e|]; simplify_eq/=; try done.
    split; [apply lookup_delete_eq | by exists msg].
  - rewrite Hlow in Hstep by lia. by simplify_eq.
Qed.

Lemma completion_predicate_witness :
  let tun := newTunnel (str "t") in
  listenDomains_step 30 key_order 0 (str "m.8.0.nbuq0000.t") tun
  = Some {| Messages := [str "hi"]; fgLists := ∅; topDomain := str "t";
            domains := [] |}
  ∧ listenDomains_step 30 key_order 0 (str "m.8.0.nbuq.t") tun
    = Some {| Messages := [];
              fgLists :=
                {[ str "m" :=
                     {| fl_totalSize := 8;
                        fragments :=
                          {[ 0 := {| id := str "m"; totalSize := 8;
                                     offset := 0; data := str "nbuq" |} ]};
                        expiresAt := 30 |} ]};
              topDomain := str "t"; domains := [] |}.
Proof.
  intros tun. split.
  - destruct (completion_predicate 30 key_order 0 (str "m.8.0.nbuq0000.t")
                tun {| id := str "m"; totalSize := 8; offset := 0;
                       data := str "nbuq0000" |} eq_refl) as (_ & H & _).
    rewrite H by (vm_compute; discriminate). vm_compute. reflexivity.
  - destruct (completion_predicate 30 key_order 0 (str "m.8.0.nbuq.t")
                tun {| id := str "m"; totalSize := 8; offset := 0;
                       data := str "nbuq" |} eq_refl) as (H & _).
    rewrite H by (vm_compute; reflexivity). vm_compute. reflexivity.
Defined.

(** C7, as stated, fails: the fragment list does not remain unchanged.
    The tunnel below holds, for the id "m", a list of [totalSize] 8 with
    the fragment "nbuq" at offset 0.  The query name "m.2.2.zz.t" makes the
    byte count (6) reach the [totalSize] that it declares (2), and
    [assemble] fails on its offset, in every iteration order.  Nothing is
    sent, but the list that stays in the map is another one: it holds the
    failing fragment too, its [totalSize] is 2 and its [expiresAt] is
    refreshed.  The fragment "0000" at offset 4, which would have completed
    the payload "hi", then completes "hs" (with [rev_order] as the order in
    which [assemble] visits the fragments). *)
Lemma assemble_error_changes_list :
  let nbuq := {| id := str "m"; totalSize := 8; offset := 0;
                 data := str "nbuq" |} in
  let zz := {| id := str "m"; totalSize := 2; offset := 2;
               data := str "zz" |} in
  let before := {| fl_totalSize := 8; fragments := {[ 0 := nbuq ]};
                   expiresAt := 30 |} in
  let after := {| fl_totalSize := 2; fragments := {[ 0 := nbuq; 2 := zz ]};
                  expiresAt := 40 |} in
  let tun := {| Messages := []; fgLists := {[ str "m" := before ]};
                topDomain := str "t"; domains := [] |} in
  parseDomain (str "t") (str "m.2.2.zz.t") = Ok zz
  ∧ assemble key_order after = Err (ErrOffset 2 2)
  ∧ assemble rev_order after = Err (ErrOffset 2 2)
  ∧ listenDomains_step 30 key_order 10 (str "m.2.2.zz.t") tun
    = Some {| Messages := []; fgLists := {[ str "m" := after ]};
              topDomain := str "t"; domains := [] |}
  ∧ after ≠ before
  ∧ Messages <$> run 30 [Domain rev_order 11 (str "m.8.4.0000.t")] tun
    = Some [str "hi"]
  ∧ Messages <$> run 30 [Domain key_order 10 (str "m.2.2.zz.t");
                          Domain rev_order 11 (str "m.8.4.0000.t")] tun
    = Some [str "hs"].
Proof.
  intros nbuq zz before after tun.
  repeat (split; [by vm_compute|]). by vm_compute.
Qed.

(** C7, amended.  Let [fg] be the fragment of a received query name,
    [before] the fragments that the list of its id held (none when there
    was no list), and [sum] the bytes held once [fg] is stored.  When [sum]
    has reached the [totalSize] that [fg] declares and [assemble] returns
    an error, which is the offset error of a stored fragment whose offset
    is not below that [totalSize] or the [CorruptInputError] of the
    decoder, the step returns normally and sends nothing on [Messages].
    The fragment list of the id stays in [fgLists], in the state in which
    the failing step leaves it: [fg] stored at its offset, the other
    offsets as before, [totalSize] the one that [fg] declares, [expiresAt]
    set to [now + expiration].  The entries of all other ids are as before.
    A sweep removes the list when it comes later than [now + expiration]
    and keeps it otherwise. *)
Theorem assemble_error_keeps_entry (expiration : Z) (o : map_order)
    (now : Z) (domain : gostring) (tun : tunnel) (fg : fragment) (e : error) :
  parseDomain (topDomain tun) domain = Ok fg →
  let before : gmap Z fragment :=
    default ∅ (fragments <$> fgLists tun !! id fg) in
  let fgList : fragmentList :=
    {| fl_totalSize := totalSize fg; fragments := <[offset fg := fg]> before;
       expiresAt := now + expiration |} in
  let sum : Z :=
    Z.of_nat (sum_list ((λ f, length (data f))
                          <$> (map_to_list (fragments fgList)).*2)) in
  totalSize fg ≤ sum →
  assemble o fgList = Err e →
  (e = ErrCorruptInput
   ∨ ∃ off f, fragments fgList !! off = Some f
              ∧ totalSize fg ≤ offset f
              ∧ e = ErrOffset (offset f) (totalSize fg))
  ∧ fragments fgList !! offset fg = Some fg
  ∧ (∀ off, off ≠ offset fg → fragments fgList !! off = before !! off)
  ∧ ∃ tun', listenDomains_step expiration o now domain tun = Some tun'
     ∧ Messages tun' = Messages tun
     ∧ topDomain tun' = topDomain tun
     ∧ domains tun' = domains tun
     ∧ fgLists tun' !! id fg = Some fgList
     ∧ (∀ id', id' ≠ id fg → fgLists tun' !! id' = fgLists tun !! id')
     ∧ (∀ t, now + expiration < t →
          fgLists (removeExpiredMessages_step t tun') !! id fg = None)
     ∧ (∀ t, t ≤ now + expiration →
          fgLists (removeExpiredMessages_step t tun') !! id fg
          = Some fgList).
Proof.
  intros Hparse before fgList sum Hle Hasm.
  pose proof (step_complete expiration o now domain tun fg Hparse) as Hhigh.
  rewrite totalBytes_sum_list, store_fragment_eq in Hhigh.
  cbn [fl_totalSize fragments] in Hhigh.
  fold before in Hhigh. fold fgList in Hhigh.
  rewrite Hasm in Hhigh. specialize (Hhigh Hle).
  split.
  { destruct (assemble_Err o fgList e Hasm) as [?|(f & Hf & ? & ?)];
      [by left|right].
    apply list_elem_of_fmap in Hf as ([off f'] & -> & Hf).
    apply elem_of_map_to_list in Hf. by exists off, f'. }
  split; [apply lookup_insert_eq|].
  split; [intros off ?; by apply lookup_insert_ne|].
  eexists. split; [exact Hhigh|].
  cbn [set_fgLists Messages topDomain domains fgLists].
  split; [done|]. split; [done|]. split; [done|].
  split; [apply lookup_insert_eq|].
  split; [intros id' ?; by apply lookup_insert_ne|].
  split.
  - intros t Ht. apply removeExpired_lookup_None. right.
    exists fgList. split; [apply lookup_insert_eq | done].
  - intros t Ht. apply removeExpired_lookup.
    split; [apply lookup_insert_eq | simpl; lia].
Qed.

Lemma assemble_error_keeps_entry_witness :
  let nbuq := {| id := str "m"; totalSize := 8; offset := 0;
                 data := str "nbuq" |} in
  let zz := {| id := str "m"; totalSize := 2; offset := 2;
               data := str "zz" |} in
  let tun := {| Messages := [];
                fgLists := {[ str "m" := {| fl_totalSize := 8;
                                            fragments := {[ 0 := nbuq ]};
                                            expiresAt := 30 |} ]};
                topDomain := str "t"; domains := [] |} in
  ∃ tun',
    listenDomains_step 30 key_order 10 (str "m.2.2.zz.t") tun = Some tun'
    ∧ Messages tun' = []
    ∧ fgLists tun' !! str "m"
      = Some {| fl_totalSize := 2;
                fragments := <[2 := zz]> (default ∅ (Some {[ 0 := nbuq ]}));
                expiresAt := 10 + 30 |}.
Proof.
  intros nbuq zz tun.
  destruct (assemble_error_keeps_entry 30 key_order 10 (str "m.2.2.zz.t")
              tun zz (ErrOffset 2 2) eq_refl)
    as (_ & _ & _ & tun' & H1 & H2 & _ & _ & H3 & _).
  - vm_compute. discriminate.
  - vm_compute. reflexivity.
  - exists tun'. split; [exact H1|]. split; [exact H2 | exact H3].
Defined.

(** ** C10: a fragment that runs over the end of the buffer *)

(** C10, at a fragment that [parseDomain] accepts: the query name
    "m.8.-1.aaaaaaaaaa.t" gives a fragment of ten bytes with offset [-1],
    so [offset < totalSize] and [offset + len(data) > totalSize].
    [assemble] does not cut the fragment to the buffer and decode: the
    slice expression [buf[f.offset:]] panics, and with it the goroutine of
    [listenDomains]. *)
Lemma negative_offset_not_truncated :
  offset overlong_negative < 8
  ∧ 8 < offset overlong_negative + len (data overlong_negative)
  ∧ assemble_loop 8 (replicate 8 zero) [overlong_negative] = Panic
  ∧ assemble key_order
      {| fl_totalSize := 8; fragments := {[ -1 := overlong_negative ]};
         expiresAt := 0 |} = Panic
  ∧ parseDomain (str "t") (str "m.8.-1.aaaaaaaaaa.t") = Ok overlong_negative
  ∧ listenDomains_step 30 key_order 0 (str "m.8.-1.aaaaaaaaaa.t")
      (newTunnel (str "t")) = None.
Proof. by vm_compute. Qed.

(** ** C5: retransmission *)


Lemma step_retransmitted (expiration : Z) (o : map_order) (now : Z)
    (domain : gostring) (tun : tunnel) (fg : fragment) (fl : fragmentList) :
  parseDomain (topDomain tun) domain = Ok fg →
  fgLists tun !! id fg = Some fl →
  fragments fl !! offset fg = Some fg →
  fl_totalSize fl = totalSize fg →
  totalBytes (map_to_list (fragments fl)).*2 < fl_totalSize fl →
  listenDomains_step expiration o now domain tun
  = Some (set_fgLists
            (<[id fg := refreshed fl (now + expiration)]> (fgLists tun)) tun).
Proof.
  intros Hparse Hfl Hfg Htotal Hsum.
  assert (store_fragment expiration now fg (fgLists tun)
          = refreshed fl (now + expiration)) as Hstore.
  { unfold store_fragment, refreshed. rewrite Hfl. simpl.
    by rewrite insert_id, Htotal. }
  rewrite (step_incomplete expiration o now domain tun fg Hparse);
    rewrite Hstore; [done|]. simpl. lia.
Qed.



(** ** C8: expiration *)

Lemma store_fragment_ext (expiration now : Z) (fg : fragment)
    (m1 m2 : gmap gostring fragmentList) :
  m1 !! id fg = m2 !! id fg →
  store_fragment expiration now fg m1 = store_fragment expiration now fg m2.
Proof. unfold store_fragment. by intros ->. Qed.

Lemma step_topDomain (expiration : Z) (ev : event) (tun tun' : tunnel) :
  step expiration ev tun = Some tun' → topDomain tun' = topDomain tun.
Proof.
  destruct ev as [o now d | now]; simpl; [|by intros [= <-]].
  unfold listenDomains_step.
  repeat case_match; intros; by simplify_eq/=.
Qed.

(** A step that brings no fragment of [id0] does the same with and without
    the fragment list of [id0]. *)
Lemma step_without (expiration : Z) (ev : event) (tun : tunnel)
    (id0 : gostring) :
  untouched (topDomain tun) id0 ev →
  step expiration ev (without id0 tun)
  = without id0 <$> step expiration ev tun.
Proof.
  destruct ev as [o now d | now]; simpl.
  - intros Hev. unfold listenDomains_step. cbn [without set_fgLists topDomain].
    destruct (parseDomain (topDomain tun) d) as [fg|e|] eqn:Hparse;
      [|done|done].
    specialize (Hev fg eq_refl).
    cbn [without set_fgLists fgLists topDomain Messages domains].
    rewrite (store_fragment_ext _ _ _ (delete id0 (fgLists tun))
               (fgLists tun)) by (by apply lookup_delete_ne).
    case_match; [|simpl; unfold without; simpl;
                  by rewrite delete_insert_ne].
    destruct (assemble o _) as [msg|e|]; simpl; [| |done].
    + unfold without. simpl.
      by rewrite !delete_insert_eq, delete_delete.
    + unfold without. simpl. by rewrite delete_insert_ne.
  - intros _. unfold removeExpiredMessages_step, without, set_fgLists. simpl.
    by rewrite map_filter_delete.
Qed.

Lemma run_without (expiration : Z) (evs : list event) (tun : tunnel)
    (id0 : gostring) :
  Forall (untouched (topDomain tun) id0) evs →
  run expiration evs (without id0 tun)
  = without id0 <$> run expiration evs tun.
Proof.
  revert tun. induction evs as [|ev evs IH]; intros tun Hevs; [done|].
  apply Forall_cons in Hevs as [Hev Hevs]. simpl.
  rewrite step_without by done.
  destruct (step expiration ev tun) as [tun'|] eqn:Hstep; [|done]. simpl.
  apply IH. by rewrite (step_topDomain _ _ _ _ Hstep).
Qed.

(** Such a step leaves the fragment list of [id0] as it is, unless it is
    the sweep and the list has expired. *)
Lemma step_untouched (expiration : Z) (ev : event) (tun tun' : tunnel)
    (id0 : gostring) (fl : fragmentList) :
  untouched (topDomain tun) id0 ev →
  step expiration ev tun = Some tun' →
  fgLists tun !! id0 = None ∨ fgLists tun !! id0 = Some fl →
  fgLists tun' !! id0 = None ∨ fgLists tun' !! id0 = Some fl.
Proof.
  destruct ev as [o now d | now]; simpl.
  - intros Hev Hstep Hfl. unfold listenDomains_step in Hstep.
    destruct (parseDomain (topDomain tun) d) as [fg|e|] eqn:Hparse;
      [|by simplify_eq|done].
    specialize (Hev fg eq_refl).
    repeat case_match; simplify_eq/=;
      by rewrite ?lookup_delete_ne, ?lookup_insert_ne by done.
  - intros _ [= <-] Hfl.
    destruct (decide (expiresAt fl < now)).
    + left. apply removeExpired_lookup_None.
      destruct Hfl; [by left | right; by exists fl].
    + destruct Hfl as [Hfl|Hfl].
      * left. apply removeExpired_lookup_None. by left.
      * right. by apply removeExpired_lookup.
Qed.

Lemma run_untouched (expiration : Z) (evs : list event) (tun tun' : tunnel)
    (id0 : gostring) (fl : fragmentList) :
  Forall (untouched (topDomain tun) id0) evs →
  run expiration evs tun = Some tun' →
  fgLists tun !! id0 = None ∨ fgLists tun !! id0 = Some fl →
  fgLists tun' !! id0 = None ∨ fgLists tun' !! id0 = Some fl.
Proof.
  revert tun. induction evs as [|ev evs IH]; intros tun Hevs; simpl.
  - by intros [= <-].
  - apply Forall_cons in Hevs as [Hev Hevs].
    destruct (step expiration ev tun) as [tun1|] eqn:Hstep; [|done]. simpl.
    intros Hrun Hfl. apply (IH tun1); [|done|].
    + by rewrite (step_topDomain _ _ _ _ Hstep).
    + by eapply step_untouched.
Qed.

Lemma run_app (expiration : Z) (evs1 evs2 : list event) (tun : tunnel) :
  run expiration (evs1 ++ evs2) tun
  = run expiration evs1 tun ≫= run expiration evs2.
Proof.
  revert tun. induction evs1 as [|ev evs1 IH]; intros tun; simpl; [done|].
  destruct (step expiration ev tun); simpl; [apply IH | done].
Qed.

(** The sweep of an expired fragment list leaves what the sweep leaves
    without that list. *)
Lemma removeExpired_without (now : Z) (tun : tunnel) (id0 : gostring)
    (fl : fragmentList) :
  fgLists tun !! id0 = None ∨ fgLists tun !! id0 = Some fl →
  expiresAt fl < now →
  removeExpiredMessages_step now (without id0 tun)
  = removeExpiredMessages_step now tun.
Proof.
  intros Hfl Hexp. unfold removeExpiredMessages_step, without, set_fgLists.
  simpl. f_equal. rewrite map_filter_delete. apply delete_id.
  apply map_lookup_filter_None. destruct Hfl as [Hfl|Hfl]; [by left|].
  right. intros fl' ?. simplify_eq/=. lia.
Qed.

(** The fragment list that a fragment is stored in expires [expiration]
    after the fragment was received. *)
Lemma step_expiresAt (expiration : Z) (o : map_order) (now : Z)
    (d : gostring) (tun tun' : tunnel) (fg : fragment) (fl : fragmentList) :
  parseDomain (topDomain tun) d = Ok fg →
  listenDomains_step expiration o now d tun = Some tun' →
  fgLists tun' !! id fg = Some fl →
  fl = store_fragment expiration now fg (fgLists tun).
Proof.
  intros Hparse Hstep Hfl. unfold listenDomains_step in Hstep.
  rewrite Hparse in Hstep.
  repeat case_match; simplify_eq/=;
    by rewrite ?lookup_delete_eq, ?lookup_insert_eq in Hfl; simplify_eq.
Qed.

(** C8.  The sweep removes from [fgLists] exactly the entries whose
    [expiresAt] is before the time of the tick.  A fragment list that is
    left in the store when a fragment of its id was received at [t0] has
    [expiresAt = t0 + expiration] (set when the list is created and set
    again by every fragment).  When no further fragment of that id arrives
    (whatever else is received or swept in between), the first sweep after
    [t0 + expiration] leaves the tunnel without an entry for the id, in the
    state, [Messages] included, that it would have reached had the fragment
    list not been there: nothing held by it is ever sent. *)
Theorem expiration_drops_transfer (expiration : Z) (o : map_order) (t0 : Z)
    (d : gostring) (tun0 tun1 : tunnel) (fg : fragment) (fl : fragmentList)
    (evs : list event) (t1 : Z) :
  parseDomain (topDomain tun0) d = Ok fg →
  listenDomains_step expiration o t0 d tun0 = Some tun1 →
  fgLists tun1 !! id fg = Some fl →
  Forall (untouched (topDomain tun0) (id fg)) evs →
  t0 + expiration < t1 →
  (∀ now tun k fl',
     fgLists (removeExpiredMessages_step now tun) !! k = Some fl'
     ↔ fgLists tun !! k = Some fl' ∧ ¬ expiresAt fl' < now)
  ∧ expiresAt fl = t0 + expiration
  ∧ run expiration (evs ++ [Tick t1]) tun1
    = run expiration (evs ++ [Tick t1]) (without (id fg) tun1)
  ∧ (∀ tun', run expiration (evs ++ [Tick t1]) tun1 = Some tun' →
       fgLists tun' !! id fg = None).
Proof.
  intros Hparse Hstep Hfl Hevs Ht1.
  assert (topDomain tun1 = topDomain tun0) as Htop
    by apply (step_topDomain expiration (Domain o t0 d) _ _ Hstep).
  assert (expiresAt fl = t0 + expiration) as Hexp
    by (by rewrite (step_expiresAt _ _ _ _ _ _ _ _ Hparse Hstep Hfl)).
  rewrite <- Htop in Hevs.
  split; [apply removeExpired_lookup|]. split; [done|].
  rewrite !run_app, run_without by done.
  destruct (run expiration evs tun1) as [tunE|] eqn:Hrun; simpl; [|done].
  pose proof (run_untouched _ _ _ _ _ fl Hevs Hrun (or_intror Hfl)) as HE.
  split.
  - f_equal. symmetry. apply (removeExpired_without _ _ _ fl); [done|lia].
  - intros tun' [= <-]. apply removeExpired_lookup_None.
    destruct HE; [by left | right; exists fl; split; [done|lia]].
Qed.

Lemma expiration_drops_transfer_witness :
  let tun0 := newTunnel (str "t") in
  let tun1 := set_fgLists
    (<[str "m" := store_fragment 30 0
         {| id := str "m"; totalSize := 8; offset := 0;
            data := str "nbuq" |} ∅]> ∅) tun0 in
  let evs := [Domain key_order 10 (str "k.8.0.nbuq0000.t"); Tick 20] in
  run 30 (evs ++ [Tick 31]) tun1
  = Some {| Messages := [str "hi"]; fgLists := ∅; topDomain := str "t";
            domains := [] |}.
Proof.
  intros tun0 tun1 evs.
  destruct (expiration_drops_transfer 30 key_order 0 (str "m.8.0.nbuq.t")
              tun0 tun1
              {| id := str "m"; totalSize := 8; offset := 0;
                 data := str "nbuq" |}
              (store_fragment 30 0
                 {| id := str "m"; totalSize := 8; offset := 0;
                    data := str "nbuq" |} ∅)
              evs 31) as (_ & _ & H & _).
  - reflexivity.
  - vm_compute. reflexivity.
  - vm_compute. reflexivity.
  - repeat constructor. intros fg Hfg. vm_compute in Hfg.
    injection Hfg as <-. vm_compute. discriminate.
  - reflexivity.
  - rewrite H. vm_compute. reflexivity.
Defined.

(** ** C1: the round trip *)

(** *** base32: decoding an encoded string *)

Lemma forall_below (n : nat) (P : Z → bool) :
  forallb (λ k, P (Z.of_nat k)) (seq 0 n) = true →
  ∀ q, 0 ≤ q < Z.of_nat n → P q = true.
Proof.
  intros H q Hq. rewrite forallb_forall in H.
  rewrite <- (Z2Nat.id q) by lia. apply H, in_seq. lia.
Qed.

Lemma symbol_decodeMap (q : Z) :
  0 ≤ q < 32 → decodeMap (symbol q) = q ∧ symbol q ≠ padChar.
Proof.
  intros Hq.
  assert (bool_decide (decodeMap (symbol q) = q ∧ symbol q ≠ padChar) = true)
    as H; [|by apply bool_decide_eq_true in H].
  revert q Hq. apply (forall_below 32). by vm_compute.
Qed.

Lemma forall_below2 (n : nat) (P : Z → Z → bool) :
  forallb (λ i, forallb (λ k, P (Z.of_nat i) (Z.of_nat k)) (seq 0 n))
    (seq 0 n) = true →
  ∀ p q, 0 ≤ p < Z.of_nat n → 0 ≤ q < Z.of_nat n → P p q = true.
Proof.
  intros H p q Hp Hq.
  apply (forall_below n (λ p, forallb (λ k, P p (Z.of_nat k)) (seq 0 n)))
    with (q := p) in H; [|done].
  by apply (forall_below n (P p)).
Qed.

Lemma forall_below3 (n : nat) (P : Z → Z → Z → bool) :
  forallb (λ i, forallb (λ j, forallb
    (λ k, P (Z.of_nat i) (Z.of_nat j) (Z.of_nat k))
    (seq 0 n)) (seq 0 n)) (seq 0 n) = true →
  ∀ p q r, 0 ≤ p < Z.of_nat n → 0 ≤ q < Z.of_nat n → 0 ≤ r < Z.of_nat n →
  P p q r = true.
Proof.
  intros H p q r Hp Hq Hr.
  apply (forall_below n (λ p, forallb (λ j, forallb
    (λ k, P p (Z.of_nat j) (Z.of_nat k)) (seq 0 n)) (seq 0 n)))
    with (q := p) in H; [|done].
  by apply (forall_below2 n (P p)).
Qed.

(** The shifts and ors of [pack] on five-bit symbols, as arithmetic. *)
Lemma pack_dst0 (p q : Z) : 0 ≤ p < 32 → 0 ≤ q < 32 →
  Z.lor (u8 (p ≪ 3)) (q ≫ 2) = p * 8 + q / 4.
Proof.
  intros Hp Hq. apply Z.eqb_eq. revert p q Hp Hq.
  apply (forall_below2 32 (λ p q,
    Z.lor (u8 (p ≪ 3)) (q ≫ 2) =? p * 8 + q / 4)). by vm_compute.
Qed.

Lemma pack_dst1 (p q r : Z) : 0 ≤ p < 32 → 0 ≤ q < 32 → 0 ≤ r < 32 →
  Z.lor (Z.lor (u8 (p ≪ 6)) (u8 (q ≪ 1))) (r ≫ 4)
  = (p mod 4) * 64 + q * 2 + r / 16.
Proof.
  intros Hp Hq Hr. apply Z.eqb_eq. revert p q r Hp Hq Hr.
  apply (forall_below3 32 (λ p q r,
    Z.lor (Z.lor (u8 (p ≪ 6)) (u8 (q ≪ 1))) (r ≫ 4)
    =? (p mod 4) * 64 + q * 2 + r / 16)). by vm_compute.
Qed.

Lemma pack_dst2 (p q : Z) : 0 ≤ p < 32 → 0 ≤ q < 32 →
  Z.lor (u8 (p ≪ 4)) (q ≫ 1) = (p mod 16) * 16 + q / 2.
Proof.
  intros Hp Hq. apply Z.eqb_eq. revert p q Hp Hq.
  apply (forall_below2 32 (λ p q,
    Z.lor (u8 (p ≪ 4)) (q ≫ 1) =? (p mod 16) * 16 + q / 2)). by vm_compute.
Qed.

Lemma pack_dst3 (p q r : Z) : 0 ≤ p < 32 → 0 ≤ q < 32 → 0 ≤ r < 32 →
  Z.lor (Z.lor (u8 (p ≪ 7)) (u8 (q ≪ 2))) (r ≫ 3)
  = (p mod 2) * 128 + q * 4 + r / 8.
Proof.
  intros Hp Hq Hr. apply Z.eqb_eq. revert p q r Hp Hq Hr.
  apply (forall_below3 32 (λ p q r,
    Z.lor (Z.lor (u8 (p ≪ 7)) (u8 (q ≪ 2))) (r ≫ 3)
    =? (p mod 2) * 128 + q * 4 + r / 8)). by vm_compute.
Qed.

Lemma pack_dst4 (p q : Z) : 0 ≤ p < 32 → 0 ≤ q < 32 →
  Z.lor (u8 (p ≪ 5)) q = (p mod 8) * 32 + q.
Proof.
  intros Hp Hq. apply Z.eqb_eq. revert p q Hp Hq.
  apply (forall_below2 32 (λ p q,
    Z.lor (u8 (p ≪ 5)) q =? (p mod 8) * 32 + q)). by vm_compute.
Qed.

Lemma byte_val_range (c : ascii) : 0 ≤ byte_val c < 256.
Proof.
  unfold byte_val. pose proof (N_ascii_bounded c). lia.
Qed.

Lemma byte_of_val (c : ascii) : byte_of (byte_val c) = c.
Proof.
  unfold byte_of, byte_val. by rewrite N2Z.id, ascii_N_embedding.
Qed.

Ltac divmod := Z.div_mod_to_equations; lia.

Lemma quantum_range (a b c d e : Z) :
  0 ≤ a < 256 → 0 ≤ b < 256 → 0 ≤ c < 256 → 0 ≤ d < 256 → 0 ≤ e < 256 →
  Forall (λ q, 0 ≤ q < 32) (quantum a b c d e).
Proof.
  intros. unfold quantum. repeat constructor; divmod.
Qed.

(** What [pack] returns on the first [n] symbols of a quantum. *)
Lemma pack_quantum (a b c d e : Z) (n : nat) :
  0 ≤ a < 256 → 0 ≤ b < 256 → 0 ≤ c < 256 → 0 ≤ d < 256 → 0 ≤ e < 256 →
  n ∈ [2; 4; 5; 7; 8]%nat →
  pack (take n (quantum a b c d e) ++ replicate (8 - n) 0) n
  = byte_of <$> take (n * 5 / 8) [a; b; c; d; e].
Proof.
  intros Ha Hb Hc Hd He Hn.
  pose proof (quantum_range a b c d e Ha Hb Hc Hd He) as Hq.
  unfold quantum in *.
  repeat (apply Forall_cons in Hq as [? Hq]).
  assert (0 ≤ 0 < 32) by lia.
  repeat (apply elem_of_cons in Hn as [->|Hn]); [..|by apply elem_of_nil in Hn];
    unfold pack;
    cbn [take replicate app lookup_total list_lookup_total fmap list_fmap
         Nat.sub Nat.mul Nat.add Nat.div Nat.divmod fst];
    rewrite ?pack_dst0, ?pack_dst1, ?pack_dst2, ?pack_dst3, ?pack_dst4
      by assumption;
    repeat f_equal; divmod.
Qed.

Lemma decode_symbol (dbuf : list Z) (j : nat) (q : Z) (src : gostring) :
  0 ≤ q < 32 →
  decode dbuf j (symbol q :: src)
  = if (S j =? 8)%nat then
      out ← decode (replicate 8 0) 0 src;
      Ok (pack (<[j := q]> dbuf) 8 ++ out)
    else decode (<[j := q]> dbuf) (S j) src.
Proof.
  intros Hq. destruct (symbol_decodeMap q Hq) as [Hmap Hpad].
  cbn [decode]. rewrite bool_decide_eq_false_2 by done.
  cbn [andb]. rewrite Hmap.
  by replace (q =? 255) with false by lia.
Qed.

Lemma decode_padding (dbuf : list Z) (j : nat) :
  j ∈ [2; 4; 5; 7]%nat →
  decode dbuf j (replicate (8 - j) padChar) = Ok (pack dbuf j).
Proof.
  intros Hj.
  repeat (apply elem_of_cons in Hj as [->|Hj]); [..|by apply elem_of_nil in Hj];
    reflexivity.
Qed.

Lemma list_ind5 {A} (P : list A → Prop) :
  P [] → (∀ a, P [a]) → (∀ a b, P [a; b]) → (∀ a b c, P [a; b; c]) →
  (∀ a b c d, P [a; b; c; d]) →
  (∀ a b c d e l, P l → P (a :: b :: c :: d :: e :: l)) →
  ∀ l, P l.
Proof.
  intros H0 H1 H2 H3 H4 H5. fix IH 1.
  intros [|a [|b [|c [|d [|e l]]]]];
    [apply H0 | apply H1 | apply H2 | apply H3 | apply H4 | apply H5, IH].
Qed.

Ltac decode_symbols Hq :=
  cbn [symbols quantum take fmap list_fmap replicate app Nat.sub];
  unfold quantum in Hq;
  repeat (apply Forall_cons in Hq as [? Hq]);
  rewrite !decode_symbol by assumption;
  cbn [Nat.eqb insert list_insert replicate].

Ltac decode_bytes Hp :=
  f_equal; etrans;
  [ apply Hp; first [ apply byte_val_range | lia | by repeat constructor ] |];
  cbn [take Nat.mul Nat.div Nat.divmod fst Nat.add fmap list_fmap];
  by rewrite !byte_of_val.

Ltac decode_partial n Hp :=
  etrans; [apply (decode_padding _ n); by repeat constructor|];
  decode_bytes Hp.

Lemma decode_EncodeToString (src : gostring) :
  decode (replicate 8 0) 0 (EncodeToString src) = Ok src.
Proof.
  induction src as [|a|a b|a b c|a b c d|a b c d e src IH] using list_ind5;
    [done|..]; cbn [EncodeToString].
  - pose proof (byte_val_range a).
    pose proof (quantum_range (byte_val a) 0 0 0 0) as Hq.
    pose proof (pack_quantum (byte_val a) 0 0 0 0 2) as Hp.
    specialize (Hq ltac:(lia) ltac:(lia) ltac:(lia) ltac:(lia) ltac:(lia)).
    decode_symbols Hq. decode_partial 2%nat Hp.
  - pose proof (byte_val_range a). pose proof (byte_val_range b).
    pose proof (quantum_range (byte_val a) (byte_val b) 0 0 0) as Hq.
    pose proof (pack_quantum (byte_val a) (byte_val b) 0 0 0 4) as Hp.
    specialize (Hq ltac:(lia) ltac:(lia) ltac:(lia) ltac:(lia) ltac:(lia)).
    decode_symbols Hq. decode_partial 4%nat Hp.
  - pose proof (byte_val_range a). pose proof (byte_val_range b).
    pose proof (byte_val_range c).
    pose proof (quantum_range (byte_val a) (byte_val b) (byte_val c) 0 0)
      as Hq.
    pose proof (pack_quantum (byte_val a) (byte_val b) (byte_val c) 0 0 5)
      as Hp.
    specialize (Hq ltac:(lia) ltac:(lia) ltac:(lia) ltac:(lia) ltac:(lia)).
    decode_symbols Hq. decode_partial 5%nat Hp.
  - pose proof (byte_val_range a). pose proof (byte_val_range b).
    pose proof (byte_val_range c). pose proof (byte_val_range d).
    pose proof (quantum_range (byte_val a) (byte_val b) (byte_val c)
                  (byte_val d) 0) as Hq.
    pose proof (pack_quantum (byte_val a) (byte_val b) (byte_val c)
                  (byte_val d) 0 7) as Hp.
    specialize (Hq ltac:(lia) ltac:(lia) ltac:(lia) ltac:(lia) ltac:(lia)).
    decode_symbols Hq. decode_partial 7%nat Hp.
  - pose proof (byte_val_range a). pose proof (byte_val_range b).
    pose proof (byte_val_range c). pose proof (byte_val_range d).
    pose proof (byte_val_range e).
    pose proof (quantum_range (byte_val a) (byte_val b) (byte_val c)
                  (byte_val d) (byte_val e)) as Hq.
    pose proof (pack_quantum (byte_val a) (byte_val b) (byte_val c)
                  (byte_val d) (byte_val e) 8) as Hp.
    specialize (Hq ltac:(lia) ltac:(lia) ltac:(lia) ltac:(lia) ltac:(lia)).
    cbn [replicate] in IH.
    decode_symbols Hq. rewrite IH, bind_Ok.
    change (a :: b :: c :: d :: e :: src) with ([a; b; c; d; e] ++ src).
    f_equal. decode_bytes Hp.
Qed.

(** *** The query name of a fragment parses to the fragment *)

Lemma byte_val_of (z : Z) : 0 ≤ z < 256 → byte_val (byte_of z) = z.
Proof.
  intros Hz. unfold byte_val, byte_of.
  rewrite N_ascii_embedding by lia. lia.
Qed.

Lemma digits_value_digits (fuel : nat) (n : Z) (acc : gostring) :
  0 ≤ n < 2 ^ (Z.of_nat fuel + 1) →
  digits_value 0 (digits fuel n acc) = digits_value n acc.
Proof.
  revert n acc. induction fuel as [|fuel IH]; intros n acc Hn.
  - cbn [digits digits_value]. unfold is_digit.
    rewrite byte_val_of by divmod.
    replace ((48 <=? 48 + n mod 10) && (48 + n mod 10 <=? 57)) with true
      by divmod.
    f_equal. change (2 ^ (Z.of_nat 0 + 1)) with 2 in Hn. divmod.
  - cbn [digits]. destruct (Z.ltb_spec n 10) as [Hlt|Hge].
    + cbn [digits_value]. unfold is_digit.
      rewrite byte_val_of by divmod.
      replace ((48 <=? 48 + n mod 10) && (48 + n mod 10 <=? 57)) with true
        by divmod.
      f_equal. divmod.
    + rewrite IH.
      * cbn [digits_value]. unfold is_digit.
        rewrite byte_val_of by divmod.
        replace ((48 <=? 48 + n mod 10) && (48 + n mod 10 <=? 57)) with true
          by divmod.
        f_equal. divmod.
      * replace (Z.of_nat (S fuel) + 1) with (Z.succ (Z.of_nat fuel + 1))
          in Hn by lia.
        rewrite Z.pow_succ_r in Hn by lia. divmod.
Qed.

Lemma digits_nonempty (fuel : nat) (n : Z) (acc : gostring) :
  digits fuel n acc ≠ [].
Proof.
  revert n acc. induction fuel as [|fuel IH]; intros n acc; cbn [digits];
    [done|]. case_match; [done | apply IH].
Qed.

Lemma digits_value_no_dot (s : gostring) (m n : Z) :
  digits_value m s = Some n → "."%char ∉ s.
Proof.
  revert m. induction s as [|c s IH]; intros m; cbn [digits_value].
  - intros _. apply not_elem_of_nil.
  - destruct (is_digit c) eqn:Hc; [|done].
    intros Hs%IH. apply not_elem_of_cons. split; [|done].
    intros <-. by vm_compute in Hc.
Qed.

Lemma Itoa_value (n : Z) : 0 ≤ n → digits_value 0 (Itoa n) = Some n.
Proof.
  intros Hn. unfold Itoa. rewrite digits_value_digits; [done|].
  split; [done|]. destruct (decide (n = 0)) as [->|]; [done|].
  rewrite Z2Nat.id by apply Z.log2_nonneg.
  apply Z.log2_spec. lia.
Qed.

Lemma Atoi_Itoa (n : Z) : 0 ≤ n ≤ maxInt → Atoi (Itoa n) = Ok n.
Proof.
  intros Hn. apply Atoi_Ok. split.
  - apply signed_none, decimal_digits_value.
    split; [apply digits_nonempty | apply Itoa_value; lia].
  - unfold minInt, maxInt, intSize in *. lia.
Qed.

Lemma Itoa_no_dot (n : Z) : 0 ≤ n → "."%char ∉ Itoa n.
Proof. intros Hn. eapply digits_value_no_dot, Itoa_value, Hn. Qed.

Lemma Split_nonempty (s : gostring) (sep : ascii) : Split s sep ≠ [].
Proof. destruct s; simpl; repeat case_match; done. Qed.

Lemma Split_no_sep (s : gostring) (sep : ascii) :
  sep ∉ s → Split s sep = [s].
Proof.
  induction s as [|c s IH]; [done|].
  intros [Hc Hs]%not_elem_of_cons. simpl.
  rewrite bool_decide_eq_false_2 by done. by rewrite IH.
Qed.

Lemma Split_app_sep (s rest : gostring) (sep : ascii) :
  sep ∉ s → Split (s ++ sep :: rest) sep = s :: Split rest sep.
Proof.
  induction s as [|c s IH].
  - intros _. simpl. by rewrite bool_decide_eq_true_2.
  - intros [Hc Hs]%not_elem_of_cons. simpl.
    rewrite bool_decide_eq_false_2 by done. by rewrite IH.
Qed.

Lemma HasSuffix_app (s suffix : gostring) : HasSuffix (s ++ suffix) suffix = true.
Proof.
  unfold HasSuffix. rewrite length_app.
  apply andb_true_intro. split; [apply Nat.leb_le; lia|].
  apply bool_decide_eq_true.
  replace (length s + length suffix - length suffix)%nat with (length s)
    by lia.
  by rewrite drop_app_length.
Qed.

Lemma TrimSuffix_app (s suffix : gostring) : TrimSuffix (s ++ suffix) suffix = s.
Proof.
  unfold TrimSuffix. rewrite HasSuffix_app, length_app.
  replace (length s + length suffix - length suffix)%nat with (length s)
    by lia.
  by rewrite take_app_length.
Qed.

Lemma parseDomain_fragmentDomain (top : gostring) (fg : fragment) :
  "."%char ∉ id fg → "."%char ∉ data fg →
  0 ≤ totalSize fg ≤ maxInt → 0 ≤ offset fg ≤ maxInt →
  parseDomain top (fragmentDomain top fg) = Ok fg.
Proof.
  intros Hid Hdata Htotal Hoff.
  assert (fragmentDomain top fg
          = (id fg ++ "."%char :: Itoa (totalSize fg)
               ++ "."%char :: Itoa (offset fg) ++ "."%char :: data fg)
            ++ (str "." ++ top)) as ->.
  { unfold fragmentDomain. change (str ".") with ["."%char].
    cbn [app].
    repeat first [rewrite <- app_assoc | rewrite <- app_comm_cons]. done. }
  unfold parseDomain.
  rewrite HasSuffix_app, TrimSuffix_app. cbn [negb].
  rewrite !Split_app_sep, (Split_no_sep (data fg))
    by first [done | apply Itoa_no_dot; lia].
  rewrite !Atoi_Itoa by done. rewrite !bind_Ok.
  unfold Join. simpl. rewrite app_nil_r. by destruct fg.
Qed.

(** *** Fragments cut from a blob *)

Lemma placed_length (blob : gostring) (f : fragment) :
  placed blob f →
  (Z.to_nat (offset f) + length (data f) ≤ length blob)%nat
  ∧ offset f < len blob.
Proof.
  intros (Hoff & Hne & Hdata). apply (f_equal length) in Hdata.
  rewrite length_take, length_drop in Hdata.
  assert (length (data f) ≠ 0)%nat by (by destruct (data f)).
  unfold len. lia.
Qed.

Lemma placed_lookup (blob : gostring) (f : fragment) (i : nat) :
  placed blob f → covers f i →
  data f !! (i - Z.to_nat (offset f))%nat = blob !! i.
Proof.
  intros (Hoff & Hne & Hdata) [Hlo Hhi].
  trans (take (length (data f)) (drop (Z.to_nat (offset f)) blob)
           !! (i - Z.to_nat (offset f))%nat); [by rewrite Hdata|].
  rewrite lookup_take_lt by lia. rewrite lookup_drop. f_equal. lia.
Qed.

(** Copying a placed fragment makes the buffer agree with the blob on the
    bytes of the fragment, and changes no other byte. *)
Lemma copy_at_placed (blob buf : gostring) (f : fragment) :
  placed blob f → length buf = length blob →
  ∃ buf', copy_at buf (offset f) (data f) = Ok buf'
    ∧ length buf' = length blob
    ∧ ∀ i, (covers f i → buf' !! i = blob !! i)
           ∧ (¬ covers f i → buf' !! i = buf !! i).
Proof.
  intros Hf Hlen. pose proof (placed_length _ _ Hf) as [Hfit Hlt].
  destruct Hf as (Hoff & Hne & Hdata).
  unfold copy_at, len in *.
  replace ((offset f <? 0) || (Z.of_nat (length buf) <? offset f))
    with false by lia.
  rewrite Nat.min_r by lia. rewrite (take_ge (data f)) by lia.
  eexists. split; [done|]. split.
  { rewrite !length_app, length_take, length_drop. lia. }
  intros i. unfold covers. split.
  - intros [Hlo Hhi].
    rewrite lookup_app_r by (rewrite length_take; lia).
    rewrite length_take, Nat.min_l by lia.
    rewrite lookup_app_l by lia.
    by apply (placed_lookup blob f i).
  - intros Hout.
    destruct (decide (i < Z.to_nat (offset f))%nat) as [Hlo|Hlo].
    + rewrite lookup_app_l by (rewrite length_take; lia).
      by rewrite lookup_take_lt.
    + rewrite lookup_app_r by (rewrite length_take; lia).
      rewrite length_take, Nat.min_l by lia.
      rewrite lookup_app_r by lia.
      rewrite lookup_drop. f_equal. lia.
Qed.

(** Whatever the order, the loop of [assemble] over placed fragments ends
    with a buffer that agrees with the blob on every byte that a fragment
    covers. *)
Lemma assemble_loop_placed (blob : gostring) (fs : list fragment)
    (buf : gostring) :
  Forall (placed blob) fs → length buf = length blob →
  ∃ buf', assemble_loop (len blob) buf fs = Ok buf'
    ∧ length buf' = length blob
    ∧ ∀ i, buf !! i = blob !! i ∨ (∃ f, f ∈ fs ∧ covers f i) →
           buf' !! i = blob !! i.
Proof.
  intros Hfs. revert buf. induction Hfs as [|f fs Hf _ IH]; intros buf Hlen.
  - exists buf. split; [done|]. split; [done|].
    intros i [?|(f & Hin & _)]; [done|]. by apply elem_of_nil in Hin.
  - cbn [assemble_loop].
    pose proof (placed_length _ _ Hf) as [_ Hlt].
    replace (len blob <=? offset f) with false by lia.
    destruct (copy_at_placed blob buf f Hf Hlen) as (buf1 & -> & Hlen1 & H1).
    rewrite bind_Ok.
    destruct (IH buf1 Hlen1) as (buf' & -> & Hlen' & H').
    exists buf'. split; [done|]. split; [done|].
    intros i Hi. apply H'.
    destruct (decide (covers f i)) as [Hc|Hc]; [left; by apply H1|].
    destruct Hi as [Hi|(g & Hg & Hgi)].
    + left. destruct (H1 i) as [_ ->]; done.
    + apply elem_of_cons in Hg as [->|Hg]; [done|]. right. by exists g.
Qed.

Lemma chunkFragments_spec (id0 : gostring) (total : Z)
    (chunks : list gostring) (pre : gostring) :
  Forall (λ c, c ≠ []) chunks →
  let blob := pre ++ concat chunks in
  let frs := chunkFragments id0 total (len pre) chunks in
  Forall (λ f, id f = id0 ∧ totalSize f = total ∧ len pre ≤ offset f
               ∧ placed blob f) frs
  ∧ NoDup (offset <$> frs)
  ∧ totalBytes frs = len (concat chunks)
  ∧ ∀ i, (length pre ≤ i < length blob)%nat → ∃ f, f ∈ frs ∧ covers f i.
Proof.
  intros Hne. revert pre.
  induction Hne as [|c chunks Hc _ IH]; intros pre; cbn zeta.
  - cbn [chunkFragments concat fmap list_fmap totalBytes foldr].
    rewrite app_nil_r. split; [constructor|]. split; [constructor|].
    split; [done|]. intros i Hi. lia.
  - cbn [chunkFragments concat].
    destruct (IH (pre ++ c)) as (Hall & Hnd & Hsum & Hcov).
    assert (len (pre ++ c) = len pre + len c) as Hpc
      by (unfold len; rewrite length_app; lia).
    rewrite Hpc in *. rewrite <- app_assoc in *.
    assert (0 < len c) by (unfold len; destruct c; [done|simpl; lia]).
    split; [|split; [|split]].
    + constructor.
      * cbn. split; [done|]. split; [done|]. split; [lia|].
        unfold placed, len. cbn. split; [lia|]. split; [done|].
        rewrite Nat2Z.id, drop_app_length. by rewrite take_app_length.
      * eapply Forall_impl; [exact Hall|].
        intros f (? & ? & ? & ?).
        split; [done|]. split; [done|]. split; [lia|done].
    + cbn. constructor; [|done].
      intros (f & Hoff & Hf)%list_elem_of_fmap.
      rewrite Forall_forall in Hall.
      destruct (Hall f Hf) as (_ & _ & Hge & _). cbn in Hoff. lia.
    + rewrite totalBytes_cons, Hsum. unfold len. cbn [data].
      rewrite length_app. lia.
    + intros i Hi.
      destruct (decide (i < length pre + length c)%nat) as [Hlt|Hge].
      * eexists. split; [left|]. unfold covers, len. cbn.
        rewrite Nat2Z.id. lia.
      * destruct (Hcov i) as (f & Hf & Hfi).
        { rewrite !length_app in *. lia. }
        exists f. split; [by right | done].
Qed.

(** *** The characters of an encoded string *)

Lemma symbol_wire (q : Z) : symbol q ∈ padChar :: encoder.
Proof.
  unfold symbol.
  destruct (nth_in_or_default (Z.to_nat q) encoder padChar) as [Hin| ->];
    [|left]. right. by apply list_elem_of_In.
Qed.

Lemma symbols_wire (n : nat) (q : list Z) :
  Forall (λ c, c ∈ padChar :: encoder) (symbols n q).
Proof.
  unfold symbols. apply Forall_app. split.
  - apply Forall_fmap, Forall_forall. intros x _. apply symbol_wire.
  - apply Forall_replicate. left.
Qed.

Lemma EncodeToString_wire (src : gostring) :
  Forall (λ c, c ∈ padChar :: encoder) (EncodeToString src).
Proof.
  induction src as [|a|a b|a b c|a b c d|a b c d e src IH] using list_ind5;
    cbn [EncodeToString]; [constructor|apply symbols_wire..|].
  apply Forall_app. split; [apply symbols_wire | exact IH].
Qed.

Lemma wire_chars (c : ascii) :
  c ∈ padChar :: encoder →
  c ≠ "."%char ∧ c ≠ "013"%char ∧ c ≠ "010"%char.
Proof.
  revert c. apply Forall_forall. by repeat (constructor; [done|]).
Qed.

Lemma EncodeToString_no_dot (src : gostring) :
  "."%char ∉ EncodeToString src.
Proof.
  intros Hin. pose proof (EncodeToString_wire src) as Hw.
  rewrite Forall_forall in Hw. by destruct (wire_chars _ (Hw _ Hin)).
Qed.

Lemma stripNewlines_wire (s : gostring) :
  Forall (λ c, c ∈ padChar :: encoder) s → stripNewlines s = s.
Proof.
  unfold stripNewlines. induction 1 as [|c s Hc _ IH]; [done|].
  destruct (wire_chars c Hc) as (_ & ? & ?).
  rewrite filter_cons_True by done. by rewrite IH.
Qed.

(** Decoding what the sender encoded gives the payload back. *)
Lemma DecodeString_EncodeToString (src : gostring) :
  DecodeString (EncodeToString src) = Ok src.
Proof.
  unfold DecodeString.
  rewrite stripNewlines_wire by apply EncodeToString_wire.
  apply decode_EncodeToString.
Qed.

Lemma EncodeToString_nonempty (src : gostring) :
  src ≠ [] → EncodeToString src ≠ [].
Proof.
  destruct src as [|a [|b [|c [|d [|e src]]]]]; [done|..]; intros _;
    cbn [EncodeToString symbols quantum take fmap list_fmap app]; done.
Qed.

(** *** Receiving the fragments of a transfer, in any order *)

Lemma fragment_map_values (fs : list fragment) :
  NoDup (offset <$> fs) → (map_to_list (fragment_map fs)).*2 ≡ₚ fs.
Proof.
  intros Hnd. unfold fragment_map. rewrite map_to_list_to_map.
  - rewrite <- list_fmap_compose. by rewrite list_fmap_id.
  - by rewrite <- list_fmap_compose.
Qed.

Lemma store_fragment_fragments (expiration now : Z) (fg : fragment)
    (m : gmap gostring fragmentList) :
  fragments (store_fragment expiration now fg m)
  = <[offset fg := fg]> (default ∅ (fragments <$> m !! id fg)).
Proof. unfold store_fragment. by destruct (m !! id fg). Qed.

Lemma totalBytes_pos (fs : list fragment) :
  fs ≠ [] → Forall (λ f, data f ≠ []) fs → 0 < totalBytes fs.
Proof.
  intros Hne Hfs. destruct Hfs as [|f fs Hf _]; [done|].
  rewrite totalBytes_cons. pose proof (totalBytes_nonneg fs).
  unfold len. destruct (data f); [done|]. simpl. lia.
Qed.

(** *** Sweeps during a transfer *)

Lemma swept_set (ds : list delivery) (tun : tunnel) (msgs : list gostring) :
  swept ds {| Messages := msgs; fgLists := fgLists tun;
              topDomain := topDomain tun; domains := domains tun |}
  = {| Messages := msgs; fgLists := fgLists (swept ds tun);
       topDomain := topDomain tun; domains := domains tun |}.
Proof.
  revert tun. induction ds as [|[o now f|t] ds IH]; intros tun; [done| |].
  - apply IH.
  - apply (IH (removeExpiredMessages_step t tun)).
Qed.

Lemma swept_lookup_None (ds : list delivery) (tun : tunnel) (k : gostring) :
  fgLists tun !! k = None → fgLists (swept ds tun) !! k = None.
Proof.
  revert tun. induction ds as [|[o now f|t] ds IH]; intros tun Hk; [done| |].
  - by apply IH.
  - apply IH, removeExpired_lookup_None. by left.
Qed.

Lemma run_sweeps (expiration : Z) (top : gostring) (ds : list delivery)
    (tun : tunnel) :
  delivered ds = [] →
  run expiration (deliveries top ds) tun = Some (swept ds tun).
Proof.
  revert tun. induction ds as [|[o now f|t] ds IH]; intros tun Hds;
    [done|done|].
  apply (IH (removeExpiredMessages_step t tun) Hds).
Qed.

Lemma without_absent (id0 : gostring) (tun : tunnel) :
  fgLists tun !! id0 = None → without id0 tun = tun.
Proof.
  intros Hnone. destruct tun as [msgs m top ds].
  unfold without, set_fgLists. simpl in *. f_equal. by apply delete_id.
Qed.

Lemma without_removeExpired (id0 : gostring) (t : Z) (tun : tunnel) :
  without id0 (removeExpiredMessages_step t tun)
  = removeExpiredMessages_step t (without id0 tun).
Proof.
  unfold removeExpiredMessages_step, without, set_fgLists. simpl.
  by rewrite map_filter_delete.
Qed.

Section transfer.
Context (expiration : Z) (top id0 blob P : gostring) (all : list fragment).
Hypothesis Hall : Forall (λ f,
  id f = id0 ∧ totalSize f = len blob ∧ placed blob f
  ∧ parseDomain top (fragmentDomain top f) = Ok f) all.
Hypothesis Hnd : NoDup (offset <$> all).
Hypothesis Hsum : totalBytes all = len blob.
Hypothesis Hcov : ∀ i, (i < length blob)%nat → ∃ f, f ∈ all ∧ covers f i.
Hypothesis Hdec : DecodeString blob = Ok P.

(** With all fragments stored, [assemble] returns the payload. *)
Lemma assemble_all (o : map_order) (fl : fragmentList) :
  fl_totalSize fl = len blob →
  (map_to_list (fragments fl)).*2 ≡ₚ all →
  assemble o fl = Ok P.
Proof.
  intros Htotal Hfl. unfold assemble, make. rewrite Htotal.
  assert (0 ≤ len blob) by (unfold len; lia).
  replace (len blob <? 0) with false by lia.
  rewrite bind_Ok.
  destruct (assemble_loop_placed blob (o (fragments fl))
              (replicate (Z.to_nat (len blob)) zero))
    as (buf & -> & Hlen & Hbuf).
  { rewrite (range_perm o), Hfl.
    eapply Forall_impl; [exact Hall|]. by intros f (_ & _ & ? & _). }
  { unfold len. rewrite length_replicate. lia. }
  rewrite bind_Ok. replace buf with blob; [done|].
  symmetry. apply list_eq. intros i.
  destruct (decide (i < length blob)%nat) as [Hi|Hi].
  - apply Hbuf. right. destruct (Hcov i Hi) as (f & Hf & Hfi).
    exists f. split; [|done]. by rewrite (range_perm o), Hfl.
  - rewrite !lookup_ge_None_2; [done|lia..].
Qed.

(** The rest [ds] of a transfer, received by a tunnel that holds the
    fragments [got], last refreshed at [last]. *)
Lemma ingest_all (ds : list delivery) (got : list fragment)
    (last : option Z) (tun : tunnel) :
  topDomain tun = top →
  got ++ delivered ds ≡ₚ all →
  default ∅ (fragments <$> fgLists tun !! id0) = fragment_map got →
  match last with
  | None => fgLists tun !! id0 = None
  | Some now =>
      ∃ fl, fgLists tun !! id0 = Some fl ∧ expiresAt fl = now + expiration
  end →
  timely expiration last ds →
  delivered ds ≠ [] →
  run expiration (deliveries top ds) tun
  = Some {| Messages := Messages tun ++ [P];
            fgLists := fgLists (swept ds (without id0 tun));
            topDomain := topDomain tun; domains := domains tun |}.
Proof.
  revert got last tun.
  induction ds as [|[o now f|t] ds IH];
    intros got last tun Htop Hperm Hst Hlast Htimely Hne; [done| |].
  - clear Hne Hlast. cbn [delivered] in Hperm. cbn [timely] in Htimely.
    assert ((f :: got) ++ delivered ds ≡ₚ all) as Hperm'
      by (by rewrite <- Hperm, <- Permutation_middle).
    assert (f ∈ all) as Hf by (rewrite <- Hperm'; left).
    pose proof Hall as Hall'. rewrite Forall_forall in Hall'.
    destruct (Hall' f Hf) as (Hid & Htotal & Hplaced & Hparse).
    assert (NoDup (offset <$> f :: got)) as Hnd'.
    { pose proof Hnd as Hnd0. rewrite <- Hperm', fmap_app in Hnd0.
      by apply NoDup_app in Hnd0 as [? _]. }
    assert (totalBytes (f :: got) + totalBytes (delivered ds) = len blob)
      as Hbytes
      by (by rewrite <- totalBytes_app, (totalBytes_perm _ _ Hperm')).
    assert (parseDomain (topDomain tun) (fragmentDomain top f) = Ok f)
      as Hparse' by (by rewrite Htop).
    clear Hparse. rename Hparse' into Hparse.
    assert (fragments (store_fragment expiration now f (fgLists tun))
            = fragment_map (f :: got)) as Hfrags
      by (by rewrite store_fragment_fragments, Hid, Hst).
    assert (totalBytes
              (map_to_list
                 (fragments (store_fragment expiration now f (fgLists tun)))).*2
            = totalBytes (f :: got)) as Hstored
      by (rewrite Hfrags; by apply totalBytes_perm, fragment_map_values).
    cbn [deliveries fmap list_fmap run step swept].
    fold (deliveries top ds).
    destruct (delivered ds) as [|g rest] eqn:Hrest.
    + change (totalBytes []) with 0 in Hbytes.
      rewrite (step_complete expiration o now _ tun f Hparse)
        by (rewrite Hstored; cbn [store_fragment fl_totalSize]; lia).
      rewrite assemble_all; [|done|].
      * cbn [mbind option_bind]. rewrite run_sweeps by done. f_equal.
        rewrite Hid.
        apply (swept_set ds (without id0 tun) (Messages tun ++ [P])).
      * rewrite Hfrags, fragment_map_values by done.
        by rewrite <- Hperm', app_nil_r.
    + assert (0 < totalBytes (g :: rest)) as Hpos.
      { apply totalBytes_pos; [done|]. apply Forall_forall. intros h Hh.
        destruct (Hall' h) as (_ & _ & (_ & ? & _) & _); [|done].
        rewrite <- Hperm'. apply elem_of_app. by right. }
      rewrite (step_incomplete expiration o now _ tun f Hparse)
        by (rewrite Hstored; cbn [store_fragment fl_totalSize]; lia).
      cbn [mbind option_bind].
      etrans; [apply (IH (f :: got) (Some now)); try done|].
      * cbn [set_fgLists fgLists]. rewrite Hid, lookup_insert_eq.
        exact Hfrags.
      * cbn [set_fgLists fgLists]. rewrite Hid, lookup_insert_eq.
        eexists. split; [done|]. by rewrite store_fragment_eq.
      * cbn [set_fgLists fgLists Messages topDomain domains].
        do 3 f_equal. unfold without, set_fgLists. simpl.
        by rewrite Hid, delete_insert_eq.
  - cbn [delivered] in Hperm, Hne. cbn [timely] in Htimely.
    destruct Htimely as [Hfresh Htimely].
    assert (fgLists (removeExpiredMessages_step t tun) !! id0
            = fgLists tun !! id0) as Hkeep.
    { destruct last as [now|].
      - destruct Hlast as (fl & Hfl & Hexp). rewrite Hfl.
        apply removeExpired_lookup. split; [done|].
        specialize (Hfresh now eq_refl Hne). lia.
      - rewrite Hlast. apply removeExpired_lookup_None. by left. }
    cbn [deliveries fmap list_fmap run step swept mbind option_bind].
    fold (deliveries top ds).
    etrans; [apply (IH got last); try done|].
    + by rewrite Hkeep.
    + by rewrite Hkeep.
    + by rewrite without_removeExpired.
Qed.
End transfer.

Lemma placed_no_dot (blob : gostring) (f : fragment) :
  placed blob f → "."%char ∉ blob → "."%char ∉ data f.
Proof.
  intros (_ & _ & Hdata) Hblob Hin. apply Hblob.
  rewrite <- Hdata in Hin.
  by apply subseteq_take, subseteq_drop in Hin.
Qed.




(** * Further properties of the code *)

(** ** Query names and fragments *)

Lemma JoinSep_cons (l : gostring) (ls : list gostring) (sep : ascii) :
  ls ≠ [] → JoinSep (l :: ls) sep = l ++ sep :: JoinSep ls sep.
Proof. by destruct ls. Qed.

Lemma JoinSep_Split (s : gostring) (sep : ascii) :
  JoinSep (Split s sep) sep = s.
Proof.
  induction s as [|c s IH]; [done|]. cbn [Split].
  case_bool_decide as Hc.
  - subst c. rewrite JoinSep_cons by apply Split_nonempty. by rewrite IH.
  - destruct (Split s sep) as [|l ls] eqn:Hs; [by destruct (Split_nonempty s sep)|].
    rewrite <- IH. by destruct ls.
Qed.

Lemma Split_labels (s : gostring) (sep : ascii) :
  Forall (λ l, sep ∉ l) (Split s sep).
Proof.
  induction s as [|c s IH]; cbn [Split].
  - repeat constructor. apply not_elem_of_nil.
  - case_bool_decide as Hc.
    + constructor; [apply not_elem_of_nil | done].
    + destruct (Split s sep) as [|l ls].
      { repeat constructor. apply not_elem_of_cons.
        split; [congruence | apply not_elem_of_nil]. }
      apply Forall_cons in IH as [Hl Hls]. constructor; [|done].
      apply not_elem_of_cons. split; [congruence | done].
Qed.

Lemma Split_JoinSep (ls : list gostring) (sep : ascii) :
  ls ≠ [] → Forall (λ l, sep ∉ l) ls → Split (JoinSep ls sep) sep = ls.
Proof.
  intros Hne Hls. induction Hls as [|l ls Hl Hls IH]; [done|].
  destruct ls as [|l' ls]; [by apply Split_no_sep|].
  rewrite JoinSep_cons by done. rewrite Split_app_sep by done.
  by rewrite IH.
Qed.

Lemma HasSuffix_inv (s suffix : gostring) :
  HasSuffix s suffix = true → s = TrimSuffix s suffix ++ suffix.
Proof.
  intros H. unfold TrimSuffix. rewrite H. unfold HasSuffix in H.
  apply andb_prop in H as [_ H]. apply bool_decide_eq_true in H.
  by rewrite <- H at 2; rewrite take_drop.
Qed.

(** X2.  The query names that [parseDomain] accepts are exactly the names
    [<id>.<l1>.<l2>.<d1>. ... .<dk>.<topDomain>] with [k >= 1], where no
    label contains a dot and [Atoi] accepts [l1] and [l2]; the fragment has
    the id, the two numbers, and the data labels concatenated. *)
Theorem parseDomain_spec (top domain : gostring) (fg : fragment) :
  parseDomain top domain = Ok fg ↔
  ∃ l1 l2 ds,
    ds ≠ []
    ∧ Forall (λ l, "."%char ∉ l) (id fg :: l1 :: l2 :: ds)
    ∧ domain = JoinSep (id fg :: l1 :: l2 :: ds) "."%char ++ "."%char :: top
    ∧ Atoi l1 = Ok (totalSize fg)
    ∧ Atoi l2 = Ok (offset fg)
    ∧ data fg = concat ds.
Proof.
  split.
  - unfold parseDomain. intros H.
    destruct (HasSuffix domain (str "." ++ top)) eqn:Hsuf; [|done].
    cbn [negb] in H.
    pose proof (Split_labels (TrimSuffix domain (str "." ++ top)) ".") as Hl.
    pose proof (JoinSep_Split (TrimSuffix domain (str "." ++ top)) ".") as Hj.
    destruct (Split _ _) as [|l0 [|l1 [|l2 [|l3 rest]]]]; try done.
    destruct (Atoi l1) as [n1| |] eqn:H1; try done.
    destruct (Atoi l2) as [n2| |] eqn:H2; try done.
    rewrite !bind_Ok in H. injection H as <-. cbn [id totalSize offset data].
    exists l1, l2, (l3 :: rest). split; [done|]. split; [done|].
    split; [|done]. rewrite Hj. by apply HasSuffix_inv.
  - intros (l1 & l2 & ds & Hne & Hl & -> & H1 & H2 & Hd).
    unfold parseDomain. change (str "." ++ top) with ("."%char :: top).
    rewrite HasSuffix_app, TrimSuffix_app. cbn [negb].
    rewrite Split_JoinSep by done.
    destruct ds as [|d ds]; [done|].
    rewrite H1, H2, !bind_Ok. unfold Join. rewrite <- Hd. by destruct fg.
Qed.

(** X3.  A fragment that [parseDomain] returns has an id and data without a dot,
    and a [totalSize] and an offset in the range of [int]; they can be
    negative. *)
Theorem parseDomain_fields (top domain : gostring) (fg : fragment) :
  parseDomain top domain = Ok fg →
  ("."%char ∉ id fg) ∧ ("."%char ∉ data fg)
  ∧ minInt ≤ totalSize fg ≤ maxInt ∧ minInt ≤ offset fg ≤ maxInt.
Proof.
  intros (l1 & l2 & ds & _ & Hl & _ & H1 & H2 & Hd)%parseDomain_spec.
  apply Forall_cons in Hl as [Hid Hl].
  apply Forall_cons in Hl as [_ Hl]. apply Forall_cons in Hl as [_ Hds].
  apply Atoi_Ok in H1 as [_ H1]. apply Atoi_Ok in H2 as [_ H2].
  split; [done|]. split; [|done].
  rewrite Hd. intros Hin%list_elem_of_In%in_concat.
  destruct Hin as (l & Hl%list_elem_of_In & Hdot%list_elem_of_In).
  rewrite Forall_forall in Hds. by apply (Hds l).
Qed.

Lemma parseDomain_fields_witness :
  let fg := {| id := str "a"; totalSize := -1; offset := 0;
               data := str "xy" |} in
  ("."%char ∉ id fg) ∧ ("."%char ∉ data fg)
  ∧ minInt ≤ totalSize fg ≤ maxInt ∧ minInt ≤ offset fg ≤ maxInt.
Proof.
  intros fg. apply (parseDomain_fields (str "t") (str "a.-1.0.x.y.t") fg).
  vm_compute. reflexivity.
Defined.

(** ** Invariants of the store *)

Lemma range_elem (o : map_order) (m : gmap Z fragment) (f : fragment) :
  f ∈ o m ↔ ∃ k, m !! k = Some f.
Proof.
  rewrite (range_perm o), list_elem_of_fmap. split.
  - intros ([k f'] & -> & H%elem_of_map_to_list). by exists k.
  - intros [k H]. exists (k, f). split; [done|]. by apply elem_of_map_to_list.
Qed.

Lemma assemble_no_panic (o : map_order) (fl : fragmentList) :
  0 ≤ fl_totalSize fl →
  (∀ off f, fragments fl !! off = Some f → 0 ≤ offset f) →
  assemble o fl ≠ Panic.
Proof.
  intros Htotal Hoff. unfold assemble, make.
  replace (fl_totalSize fl <? 0) with false by lia. rewrite bind_Ok.
  destruct (assemble_loop _ _ _) as [buf|e|] eqn:Hloop; simpl; [|done|].
  - apply decode_no_panic.
  - apply assemble_loop_in_range in Hloop; [done| |].
    + unfold len. rewrite length_replicate. lia.
    + apply Forall_forall. intros f [k Hf]%range_elem. by eapply Hoff.
Qed.

Lemma store_fragment_lookup (expiration now : Z) (fg : fragment)
    (m : gmap gostring fragmentList) (off : Z) (f : fragment) :
  fragments (store_fragment expiration now fg m) !! off = Some f →
  f = fg ∧ off = offset fg
  ∨ ∃ fl, m !! id fg = Some fl ∧ fragments fl !! off = Some f.
Proof.
  rewrite store_fragment_fragments.
  destruct (decide (offset fg = off)) as [<-|Hne].
  - rewrite lookup_insert_eq. intros [= <-]. by left.
  - rewrite lookup_insert_ne by done.
    destruct (m !! id fg) as [fl|]; simpl; [|by rewrite lookup_empty].
    intros H. right. by exists fl.
Qed.

(** What a step of [listenDomains] can leave in the store: the old map, the
    map with the fragment stored, or the map without the entry of the
    fragment's id. *)
Lemma listenDomains_step_cases (expiration : Z) (o : map_order) (now : Z)
    (d : gostring) (tun tun' : tunnel) :
  listenDomains_step expiration o now d tun = Some tun' →
  tun' = tun ∧ is_Err (parseDomain (topDomain tun) d)
  ∨ ∃ fg, parseDomain (topDomain tun) d = Ok fg
      ∧ (tun' = set_fgLists
                  (<[id fg := store_fragment expiration now fg (fgLists tun)]>
                     (fgLists tun)) tun
         ∨ ∃ msg,
             assemble o (store_fragment expiration now fg (fgLists tun))
             = Ok msg
             ∧ tun' = {| Messages := Messages tun ++ [msg];
                         fgLists := delete (id fg) (fgLists tun);
                         topDomain := topDomain tun;
                         domains := domains tun |}).
Proof.
  unfold listenDomains_step.
  destruct (parseDomain (topDomain tun) d) as [fg|e|] eqn:Hparse; [| |done].
  - intros H. right. exists fg. split; [done|].
    destruct (_ <=? _); [|left; by simplify_eq].
    destruct (assemble o _) as [msg|e|]; simplify_eq/=; [|by left].
    right. exists msg. split; [done|]. by rewrite delete_insert_eq.
  - intros [= <-]. left. split; [done | by exists e].
Qed.

Lemma nonneg_store_new (top : gostring) : nonneg_store (newTunnel top).
Proof.
  intros k fl off f Hk. cbn [newTunnel fgLists] in Hk.
  by rewrite lookup_empty in Hk.
Qed.

Lemma store_ok_new (top : gostring) : store_ok (newTunnel top).
Proof.
  intros k fl Hk. cbn [newTunnel fgLists] in Hk.
  by rewrite lookup_empty in Hk.
Qed.

(** X4.  No panic without a negative number: from a store whose offsets are not
    negative, events whose query names carry no negative [totalSize] or
    offset are all processed, and leave such a store. *)
Theorem run_nonneg_no_panic (expiration : Z) (evs : list event)
    (tun : tunnel) :
  nonneg_store tun →
  Forall (nonneg_event (topDomain tun)) evs →
  ∃ tun', run expiration evs tun = Some tun' ∧ nonneg_store tun'.
Proof.
  revert tun. induction evs as [|ev evs IH]; intros tun Hst Hevs.
  - by exists tun.
  - apply Forall_cons in Hevs as [Hev Hevs].
    assert (∃ tun1, step expiration ev tun = Some tun1 ∧ nonneg_store tun1)
      as (tun1 & Hstep & Hst1).
    { destruct ev as [o now d | now]; cbn [step].
      - cbn [nonneg_event] in Hev.
        assert (∀ fg, parseDomain (topDomain tun) d = Ok fg →
                  ∀ off f,
                    fragments (store_fragment expiration now fg (fgLists tun))
                      !! off = Some f → 0 ≤ offset f) as Hnew.
        { intros fg Hfg off f [[-> _]|(fl & Hfl & Hf)]%store_fragment_lookup.
          - by apply Hev.
          - by eapply Hst. }
        destruct (listenDomains_step expiration o now d tun) as [tun1|]
          eqn:Hstep.
        + exists tun1. split; [done|].
          apply listenDomains_step_cases in Hstep
            as [[-> _]|(fg & Hfg & [->|(msg & _ & ->)])]; [done|..].
          * intros k fl off f. cbn [set_fgLists fgLists].
            destruct (decide (id fg = k)) as [<-|Hne].
            -- rewrite lookup_insert_eq. intros [= <-]. by apply Hnew.
            -- rewrite lookup_insert_ne by done. apply Hst.
          * intros k fl off f. cbn [fgLists].
            intros [_ Hk]%lookup_delete_Some Hf. by eapply Hst.
        + exfalso. unfold listenDomains_step in Hstep.
          destruct (parseDomain (topDomain tun) d) as [fg|e|] eqn:Hfg;
            [|done|by destruct (parseDomain_no_panic (topDomain tun) d)].
          destruct (_ <=? _); [|done].
          destruct (assemble o _) eqn:Hasm; try done.
          apply assemble_no_panic in Hasm; [done| |by apply Hnew].
          cbn [store_fragment fl_totalSize]. by apply Hev.
      - eexists. split; [done|]. intros k fl off f.
        intros [Hk _]%removeExpired_lookup Hf. by eapply Hst. }
    cbn [run]. rewrite Hstep. cbn [mbind option_bind].
    apply IH; [done|]. by rewrite (step_topDomain _ _ _ _ Hstep).
Qed.

Lemma run_nonneg_no_panic_witness :
  ∃ tun',
    run 30 [Domain key_order 0 (str "m.8.4.0000.t"); Tick 5;
            Domain key_order 9 (str "m.8.0.nbuq.t")] (newTunnel (str "t"))
    = Some tun'
    ∧ nonneg_store tun'.
Proof.
  apply (run_nonneg_no_panic 30 _ (newTunnel (str "t"))).
  - apply nonneg_store_new.
  - apply Forall_cons. split.
    { intros fg Hfg. vm_compute in Hfg. injection Hfg as <-. by vm_compute. }
    apply Forall_cons. split; [exact I|].
    apply Forall_cons. split; [|apply Forall_nil_2].
    intros fg Hfg. vm_compute in Hfg. injection Hfg as <-. by vm_compute.
Defined.

(** X5.  The shape of the store is kept by every step, from the empty store of
    [newTunnel] on. *)
Theorem run_store_ok (expiration : Z) (evs : list event)
    (tun tun' : tunnel) :
  store_ok tun →
  run expiration evs tun = Some tun' →
  store_ok tun'.
Proof.
  revert tun. induction evs as [|ev evs IH]; intros tun Hst; cbn [run].
  - by intros [= <-].
  - destruct (step expiration ev tun) as [tun1|] eqn:Hstep; [|done].
    cbn [mbind option_bind]. apply IH.
    destruct ev as [o now d | now]; cbn [step] in Hstep.
    + apply listenDomains_step_cases in Hstep
        as [[-> _]|(fg & Hfg & [->|(msg & _ & ->)])]; [done|..].
      * intros k fl. cbn [set_fgLists fgLists].
        destruct (decide (id fg = k)) as [<-|Hne].
        -- rewrite lookup_insert_eq. intros [= <-]. split.
           ++ intros off f
                [[-> ->]|(fl & Hfl & Hf)]%store_fragment_lookup; [done|].
              by destruct (Hst _ _ Hfl) as [H _]; apply H.
           ++ exists (offset fg), fg.
              by rewrite store_fragment_fragments, lookup_insert_eq.
        -- rewrite lookup_insert_ne by done. apply Hst.
      * intros k fl. cbn [fgLists].
        intros [_ Hk]%lookup_delete_Some. by apply Hst.
    + injection Hstep as <-. intros k fl [Hk _]%removeExpired_lookup.
      by apply Hst.
Qed.

Lemma run_store_ok_witness :
  let fg := {| id := str "m"; totalSize := 8; offset := 4;
               data := str "0000" |} in
  store_ok (set_fgLists (<[str "m" := store_fragment 30 0 fg ∅]> ∅)
              (newTunnel (str "t"))).
Proof.
  intros fg.
  apply (run_store_ok 30 [Domain key_order 0 (str "m.8.4.0000.t")]
           (newTunnel (str "t"))).
  - apply store_ok_new.
  - vm_compute. reflexivity.
Defined.

(** ** What a run sends and what it leaves alone *)

(** X6.  [Messages] only grows, by at most one payload for each query name
    received; the sweep sends nothing; [topDomain] and the queue [domains]
    are never written by the two loops. *)
Theorem run_Messages (expiration : Z) (evs : list event)
    (tun tun' : tunnel) :
  run expiration evs tun = Some tun' →
  ∃ msgs,
    Messages tun' = Messages tun ++ msgs
    ∧ (length msgs ≤ length (filter (λ ev, is_Domain ev) evs))%nat
    ∧ topDomain tun' = topDomain tun
    ∧ domains tun' = domains tun.
Proof.
  revert tun. induction evs as [|ev evs IH]; intros tun; cbn [run].
  - intros [= <-]. exists []. by rewrite app_nil_r.
  - destruct (step expiration ev tun) as [tun1|] eqn:Hstep; [|done].
    cbn [mbind option_bind]. intros (msgs & HM & Hlen & Htop & Hdom)%IH.
    destruct ev as [o now d | now]; cbn [step] in Hstep.
    + rewrite filter_cons_True by done. cbn [length].
      apply listenDomains_step_cases in Hstep
        as [[-> _]|(fg & Hfg & [->|(msg & _ & ->)])].
      * exists msgs. split; [done|]. split; [lia|done].
      * exists msgs. split; [done|]. split; [lia|done].
      * exists (msg :: msgs). cbn [Messages topDomain domains] in *.
        split; [by rewrite HM, <- app_assoc|]. split; [cbn; lia|done].
    + rewrite filter_cons_False by (by intros []).
      injection Hstep as <-. by exists msgs.
Qed.

Lemma run_Messages_witness :
  ∃ msgs,
    Messages (newTunnel (str "t")) ++ [str "hi"]
    = Messages (newTunnel (str "t")) ++ msgs
    ∧ (length msgs ≤ 2)%nat.
Proof.
  destruct (run_Messages 30
              [Domain key_order 0 (str "m.8.4.0000.t"); Tick 5;
               Domain key_order 9 (str "m.8.0.nbuq.t")]
              (newTunnel (str "t"))
              {| Messages := [str "hi"]; fgLists := ∅;
                 topDomain := str "t"; domains := [] |})
    as (msgs & H1 & H2 & _).
  - vm_compute. reflexivity.
  - exists msgs. split; [exact H1 | exact H2].
Defined.

(** X7.  A query name changes no fragment list but the one of its own id, and a
    query name that [parseDomain] rejects changes none. *)
Theorem listenDomains_step_frame (expiration : Z) (o : map_order) (now : Z)
    (d : gostring) (tun tun' : tunnel) (k : gostring) :
  listenDomains_step expiration o now d tun = Some tun' →
  (∀ fg, parseDomain (topDomain tun) d = Ok fg → id fg ≠ k) →
  fgLists tun' !! k = fgLists tun !! k.
Proof.
  intros Hstep Hk.
  apply listenDomains_step_cases in Hstep
    as [[-> _]|(fg & Hfg & [->|(msg & _ & ->)])]; [done|..];
    specialize (Hk fg Hfg); cbn [set_fgLists fgLists].
  - by rewrite lookup_insert_ne.
  - by rewrite lookup_delete_ne.
Qed.

Lemma listenDomains_step_frame_witness :
  let fg := {| id := str "m"; totalSize := 8; offset := 4;
               data := str "0000" |} in
  let tun' := set_fgLists (<[str "m" := store_fragment 30 0 fg ∅]> ∅)
                (newTunnel (str "t")) in
  fgLists tun' !! str "k" = fgLists (newTunnel (str "t")) !! str "k".
Proof.
  intros fg tun'.
  apply (listenDomains_step_frame 30 key_order 0 (str "m.8.4.0000.t")
           (newTunnel (str "t")) tun' (str "k")).
  - vm_compute. reflexivity.
  - intros fg' Hfg. vm_compute in Hfg. injection Hfg as <-. by vm_compute.
Defined.

(** ** The sweep *)

(** X8.  Two sweeps are one sweep at the later of the two times, in whichever
    order they run (so a sweep repeated at the same time removes nothing
    more); a sweep sends nothing and keeps [topDomain] and [domains]. *)
Theorem removeExpired_compose (t1 t2 : Z) (tun : tunnel) :
  removeExpiredMessages_step t2 (removeExpiredMessages_step t1 tun)
  = removeExpiredMessages_step (t1 `max` t2) tun
  ∧ Messages (removeExpiredMessages_step t1 tun) = Messages tun
  ∧ topDomain (removeExpiredMessages_step t1 tun) = topDomain tun
  ∧ domains (removeExpiredMessages_step t1 tun) = domains tun.
Proof.
  split; [|done].
  unfold removeExpiredMessages_step, set_fgLists. cbn. f_equal.
  rewrite map_filter_filter. apply map_filter_ext.
  intros k fl _. cbn. lia.
Qed.

(** X9.  A fragment list that has just received a fragment outlives every sweep
    up to [expiration] after that fragment. *)
Theorem sweep_keeps_fresh (expiration : Z) (o : map_order) (now : Z)
    (d : gostring) (tun tun' : tunnel) (fg : fragment) (fl : fragmentList)
    (t : Z) :
  parseDomain (topDomain tun) d = Ok fg →
  listenDomains_step expiration o now d tun = Some tun' →
  fgLists tun' !! id fg = Some fl →
  t ≤ now + expiration →
  fgLists (removeExpiredMessages_step t tun') !! id fg = Some fl.
Proof.
  intros Hfg Hstep Hfl Ht. apply removeExpired_lookup. split; [done|].
  rewrite (step_expiresAt _ _ _ _ _ _ _ _ Hfg Hstep Hfl).
  cbn [store_fragment expiresAt]. lia.
Qed.

Lemma sweep_keeps_fresh_witness :
  let fg := {| id := str "m"; totalSize := 8; offset := 4;
               data := str "0000" |} in
  let tun' := set_fgLists (<[str "m" := store_fragment 30 0 fg ∅]> ∅)
                (newTunnel (str "t")) in
  fgLists (removeExpiredMessages_step 30 tun') !! str "m"
  = Some (store_fragment 30 0 fg ∅).
Proof.
  intros fg tun'.
  apply (sweep_keeps_fresh 30 key_order 0 (str "m.8.4.0000.t")
           (newTunnel (str "t")) tun' fg (store_fragment 30 0 fg ∅) 30).
  - vm_compute. reflexivity.
  - vm_compute. reflexivity.
  - vm_compute. reflexivity.
  - vm_compute. discriminate.
Defined.

(** ** What [assemble] returns *)

Lemma pack_length (dbuf : list Z) (n : nat) : (length (pack dbuf n) ≤ 5)%nat.
Proof.
  unfold pack. rewrite length_fmap.
  do 9 (destruct n as [|n]; [cbn; lia|]). cbn. lia.
Qed.

(** The decoder returns at most five bytes for eight characters read. *)
Lemma decode_length (src : gostring) (dbuf : list Z) (j : nat)
    (out : gostring) :
  decode dbuf j src = Ok out →
  (8 * length out ≤ 5 * (j + length src))%nat.
Proof.
  revert dbuf j out. induction src as [|c src IH]; intros dbuf j out;
    cbn [decode].
  - destruct (j =? 0)%nat; [|done]. intros [= <-]. cbn. lia.
  - destruct (_ && _ && _) eqn:Hpad.
    + destruct (Nat.ltb_spec (length src + j) (8 - 1)) as [|Hlen]; [done|].
      destruct (negb _); [done|].
      destruct (bool_decide (j = 1 ∨ j = 3 ∨ j = 6)%nat); [done|].
      intros [= <-]. pose proof (pack_length dbuf j). cbn [length]. lia.
    + destruct (decodeMap c =? 255); [done|].
      destruct (Nat.eqb_spec (S j) 8) as [Hj|Hj].
      * destruct (decode (replicate 8 0) 0 src) as [out'| |] eqn:Hd;
          [|done..].
        rewrite bind_Ok. intros [= <-]. apply IH in Hd.
        pose proof (pack_length (<[j:=decodeMap c]> dbuf) 8).
        rewrite ?length_app. cbn [length]. lia.
      * intros Hd%IH. cbn [length]. lia.
Qed.

Lemma assemble_loop_length (total : Z) (fs : list fragment)
    (buf buf' : gostring) :
  assemble_loop total buf fs = Ok buf' → length buf' = length buf.
Proof.
  revert buf. induction fs as [|f fs IH]; intros buf; cbn [assemble_loop].
  - by intros [= <-].
  - destruct (total <=? offset f); [done|].
    destruct (copy_at buf (offset f) (data f)) as [buf1| |] eqn:Hc; [|done..].
    rewrite bind_Ok. intros ->%IH. by eapply copy_at_length.
Qed.

(** X10.  A payload that [assemble] returns has at most 5 bytes for every 8 bytes
    of the declared [totalSize], whatever the fragments hold. *)
Theorem assemble_size (o : map_order) (fl : fragmentList) (msg : gostring) :
  assemble o fl = Ok msg → 8 * len msg ≤ 5 * fl_totalSize fl.
Proof.
  unfold assemble, make.
  destruct (Z.ltb_spec (fl_totalSize fl) 0) as [|Htotal]; [done|].
  rewrite bind_Ok.
  destruct (assemble_loop _ _ _) as [buf| |] eqn:Hloop; [|done..].
  rewrite bind_Ok. unfold DecodeString. intros Hd%decode_length.
  apply assemble_loop_length in Hloop. rewrite length_replicate in Hloop.
  pose proof (length_filter (λ c, c ≠ "013"%char ∧ c ≠ "010"%char) buf) as Hf.
  unfold stripNewlines in Hd. unfold len. lia.
Qed.

Lemma assemble_size_witness :
  8 * len (str "hi") ≤ 5 * 8.
Proof.
  apply (assemble_size key_order
           {| fl_totalSize := 8;
              fragments := {[ 0 := {| id := str "m"; totalSize := 8;
                                      offset := 0; data := str "nbuq0000" |} ]};
              expiresAt := 0 |} (str "hi")).
  vm_compute. reflexivity.
Defined.

(** A fragment list with a [totalSize] that is not positive is never
    assembled: [make] panics on a negative size, and in a buffer of no
    bytes every offset is out of range. *)
Lemma assemble_empty_total (o : map_order) (fl : fragmentList)
    (off : Z) (f : fragment) (msg : gostring) :
  fl_totalSize fl ≤ 0 → fragments fl !! off = Some f →
  assemble o fl ≠ Ok msg.
Proof.
  intros Htotal Hf. unfold assemble, make.
  destruct (Z.ltb_spec (fl_totalSize fl) 0) as [|Hge]; [done|].
  rewrite bind_Ok. assert (fl_totalSize fl = 0) as -> by lia.
  assert (f ∈ o (fragments fl)) as Hin by (apply range_elem; by exists off).
  destruct (o (fragments fl)) as [|g gs]; [by apply elem_of_nil in Hin|].
  cbn [assemble_loop]. destruct (Z.leb_spec 0 (offset g)); [done|].
  unfold copy_at. by replace (offset g <? 0) with true by lia.
Qed.

(** X11.  A query name that declares a [totalSize] of zero or less never sends
    anything: if the step returns, [Messages] is as before and the fragment
    stays in the store. *)
Theorem empty_transfer_never_sent (expiration : Z) (o : map_order) (now : Z)
    (d : gostring) (tun tun' : tunnel) (fg : fragment) :
  parseDomain (topDomain tun) d = Ok fg →
  totalSize fg ≤ 0 →
  listenDomains_step expiration o now d tun = Some tun' →
  Messages tun' = Messages tun
  ∧ fgLists tun' !! id fg
    = Some (store_fragment expiration now fg (fgLists tun)).
Proof.
  intros Hfg Htotal Hstep.
  apply listenDomains_step_cases in Hstep
    as [[_ [e He]]|(fg' & Hfg' & [->|(msg & Hasm & _)])]; [congruence|..];
    assert (fg' = fg) as -> by congruence.
  - split; [done|]. cbn [set_fgLists fgLists]. apply lookup_insert_eq.
  - exfalso. revert Hasm.
    apply (assemble_empty_total o _ (offset fg) fg); [done|].
    by rewrite store_fragment_fragments, lookup_insert_eq.
Qed.

Lemma empty_transfer_never_sent_witness :
  let fg := {| id := str "m"; totalSize := 0; offset := 0; data := [] |} in
  let tun' := set_fgLists (<[str "m" := store_fragment 30 0 fg ∅]> ∅)
                (newTunnel (str "t")) in
  Messages tun' = Messages (newTunnel (str "t"))
  ∧ fgLists tun' !! id fg
    = Some (store_fragment 30 0 fg (fgLists (newTunnel (str "t")))).
Proof.
  intros fg tun'.
  apply (empty_transfer_never_sent 30 key_order 0 (str "m.0.0..t")
           (newTunnel (str "t")) tun' fg).
  - vm_compute. reflexivity.
  - vm_compute. discriminate.
  - vm_compute. reflexivity.
Defined.

(** ** The order of the iteration in [assemble] *)

(** The bytes of the buffer after a copy. *)
Lemma copy_at_lookup (buf : gostring) (off : Z) (src buf' : gostring)
    (i : nat) :
  copy_at buf off src = Ok buf' →
  buf' !! i
  = if decide ((Z.to_nat off ≤ i < Z.to_nat off + length src)%nat
               ∧ (i < length buf)%nat)
    then src !! (i - Z.to_nat off)%nat else buf !! i.
Proof.
  unfold copy_at, len.
  destruct (_ || _) eqn:Hoff; [done|]. intros [= <-].
  assert (0 ≤ off ≤ Z.of_nat (length buf)) by lia.
  destruct (decide (i < Z.to_nat off)%nat) as [Hlo|Hlo].
  { rewrite lookup_app_l by (rewrite length_take; lia).
    rewrite lookup_take_lt by done. case_decide; [lia|done]. }
  rewrite lookup_app_r by (rewrite length_take; lia).
  rewrite length_take, Nat.min_l by lia.
  destruct (decide (i - Z.to_nat off
                    < (length buf - Z.to_nat off) `min` length src)%nat)
    as [Hin|Hout].
  - rewrite lookup_app_l by (rewrite length_take; lia).
    rewrite lookup_take_lt by done. case_decide; [done|lia].
  - rewrite lookup_app_r by (rewrite length_take; lia).
    rewrite length_take, lookup_drop.
    case_decide as Hc.
    + rewrite !lookup_ge_None_2; [done|lia..].
    + destruct (decide (i < length buf)%nat).
      * f_equal. lia.
      * rewrite !lookup_ge_None_2; [done|lia..].
Qed.

(** Two copies that agree where they overlap can be made in either order. *)
Lemma copy_at_commute (buf : gostring) (f g : fragment) (total : Z) :
  len buf = total →
  0 ≤ offset f < total → 0 ≤ offset g < total →
  agree (length buf) f g →
  copy_at buf (offset f) (data f) ≫= (λ b, copy_at b (offset g) (data g))
  = copy_at buf (offset g) (data g) ≫= (λ b, copy_at b (offset f) (data f)).
Proof.
  intros Hlen Hf Hg Hfg. unfold len in Hlen.
  destruct (copy_at_in_range buf (offset f) (data f)) as [bf Hbf];
    [unfold len; lia|].
  destruct (copy_at_in_range buf (offset g) (data g)) as [bg Hbg];
    [unfold len; lia|].
  pose proof (copy_at_length _ _ _ _ Hbf) as Hlf.
  pose proof (copy_at_length _ _ _ _ Hbg) as Hlg.
  destruct (copy_at_in_range bf (offset g) (data g)) as [bfg Hbfg];
    [unfold len; lia|].
  destruct (copy_at_in_range bg (offset f) (data f)) as [bgf Hbgf];
    [unfold len; lia|].
  rewrite Hbf, Hbg, !bind_Ok, Hbfg, Hbgf. f_equal.
  apply list_eq. intros i.
  rewrite (copy_at_lookup _ _ _ _ i Hbfg), (copy_at_lookup _ _ _ _ i Hbgf).
  rewrite (copy_at_lookup _ _ _ _ i Hbf), (copy_at_lookup _ _ _ _ i Hbg).
  rewrite Hlf, Hlg.
  repeat case_decide; try done.
  symmetry. apply Hfg; unfold covers; lia.
Qed.

Lemma assemble_loop_perm (total : Z) (l l' : list fragment)
    (buf : gostring) :
  l ≡ₚ l' →
  len buf = total →
  (∀ f, f ∈ l → 0 ≤ offset f < total) →
  (∀ f g, f ∈ l → g ∈ l → agree (length buf) f g) →
  assemble_loop total buf l = assemble_loop total buf l'.
Proof.
  intros Hperm. revert buf.
  induction Hperm as [|x l l' Hperm IH|x y l|l l' l'' Hp1 IH1 Hp2 IH2];
    intros buf Hlen Hrange Hagree.
  - done.
  - cbn [assemble_loop]. destruct (total <=? offset x); [done|].
    destruct (copy_at buf (offset x) (data x)) as [b| |] eqn:Hb; [|done..].
    rewrite !bind_Ok.
    pose proof (copy_at_length _ _ _ _ Hb) as Hlb.
    apply IH.
    + unfold len in *. lia.
    + intros f Hf. apply Hrange. by right.
    + intros f g Hf Hg. rewrite Hlb. apply Hagree; by right.
  - cbn [assemble_loop].
    assert (0 ≤ offset x < total) as Hx by (apply Hrange; right; left).
    assert (0 ≤ offset y < total) as Hy by (apply Hrange; left).
    replace (total <=? offset x) with false by lia.
    replace (total <=? offset y) with false by lia.
    pose proof (copy_at_commute buf y x total Hlen Hy Hx) as Hc.
    destruct (copy_at buf (offset y) (data y)) as [by1| |] eqn:Hby;
      destruct (copy_at buf (offset x) (data x)) as [bx1| |] eqn:Hbx;
      rewrite ?bind_Ok in *; cbn in Hc |- *;
      try (by rewrite Hc; [|apply Hagree; [left | right; left]]);
      try done.
    all: exfalso;
      first [ destruct (copy_at_in_range buf (offset y) (data y)) as [? ?];
              [unfold len in *; lia | congruence]
            | destruct (copy_at_in_range buf (offset x) (data x)) as [? ?];
              [unfold len in *; lia | congruence] ].
  - rewrite IH1 by done. apply IH2; [done| |].
    + intros f Hf. apply Hrange. by rewrite Hp1.
    + intros f g Hf Hg. apply Hagree; by rewrite Hp1.
Qed.

(** X12.  When every stored offset is inside the buffer and any two stored
    fragments agree on the bytes that both write (as fragments with
    disjoint ranges do), [assemble] returns the same result in every order
    of the iteration over the map. *)
Theorem assemble_order_independent (o1 o2 : map_order) (fl : fragmentList) :
  (∀ off f, fragments fl !! off = Some f → 0 ≤ offset f < fl_totalSize fl) →
  (∀ off1 f1 off2 f2,
     fragments fl !! off1 = Some f1 → fragments fl !! off2 = Some f2 →
     agree (Z.to_nat (fl_totalSize fl)) f1 f2) →
  assemble o1 fl = assemble o2 fl.
Proof.
  intros Hrange Hagree. unfold assemble, make.
  destruct (fl_totalSize fl <? 0) eqn:Htotal; [done|].
  rewrite !bind_Ok. f_equal.
  apply assemble_loop_perm.
  - by rewrite !range_perm.
  - unfold len. rewrite length_replicate. lia.
  - intros f [off Hf]%range_elem. by eapply Hrange.
  - intros f g [k1 Hf]%range_elem [k2 Hg]%range_elem.
    rewrite length_replicate. by eapply Hagree.
Qed.

Lemma assemble_order_independent_witness :
  let fl := {| fl_totalSize := 8;
               fragments :=
                 <[4 := {| id := str "m"; totalSize := 8; offset := 4;
                           data := str "0000" |}]>
                 {[ 0 := {| id := str "m"; totalSize := 8; offset := 0;
                            data := str "nbuq" |} ]};
               expiresAt := 0 |} in
  assemble key_order fl = assemble rev_order fl.
Proof.
  intros fl. apply (assemble_order_independent key_order rev_order fl).
  - intros off f Hf. cbn [fl fragments fl_totalSize] in *.
    apply lookup_insert_Some in Hf as [[<- <-]|[_ Hf]]; [by vm_compute|].
    apply lookup_singleton_Some in Hf as [<- <-]. by vm_compute.
  - intros off1 f1 off2 f2 H1 H2 i Hi. cbn [fl fragments fl_totalSize] in *.
    apply lookup_insert_Some in H1 as [[<- <-]|[_ H1]];
      [|apply lookup_singleton_Some in H1 as [<- <-]];
      (apply lookup_insert_Some in H2 as [[<- <-]|[_ H2]];
       [|apply lookup_singleton_Some in H2 as [<- <-]]);
      unfold covers; cbn; intros; first [done | lia].
Defined.

(** ** The first byte *)

Lemma assemble_loop_first (total : Z) (fs : list fragment)
    (buf buf' : gostring) :
  assemble_loop total buf fs = Ok buf' →
  buf' !! 0%nat = buf !! 0%nat
  ∨ ∃ f, f ∈ fs ∧ offset f = 0 ∧ data f ≠ [].
Proof.
  revert buf. induction fs as [|f fs IH]; intros buf; cbn [assemble_loop].
  - intros [= <-]. by left.
  - destruct (total <=? offset f); [done|].
    destruct (copy_at buf (offset f) (data f)) as [b| |] eqn:Hb; [|done..].
    rewrite bind_Ok. intros [H0|(g & Hg & ?)]%IH.
    + rewrite (copy_at_lookup _ _ _ _ 0%nat Hb) in H0.
      assert (0 ≤ offset f).
      { unfold copy_at in Hb. destruct (Z.ltb_spec (offset f) 0); [done|lia]. }
      case_decide as Hc; [|by left]. right. exists f.
      split; [left|]. split; [lia|]. destruct (data f); [cbn in Hc; lia|done].
    + right. exists g. split; [by right | done].
Qed.

Lemma DecodeString_zero (s : gostring) :
  DecodeString (zero :: s) = Err ErrCorruptInput.
Proof.
  unfold DecodeString, stripNewlines.
  rewrite filter_cons_True by done. reflexivity.
Qed.

(** X13.  [assemble] returns a payload only if a stored fragment writes the first
    byte of the buffer: a transfer that lacks its fragment at offset 0 is
    not sent, however many bytes its other fragments hold. *)
Theorem assemble_first_byte (o : map_order) (fl : fragmentList)
    (msg : gostring) :
  assemble o fl = Ok msg →
  0 < fl_totalSize fl →
  ∃ off f, fragments fl !! off = Some f ∧ offset f = 0 ∧ data f ≠ [].
Proof.
  unfold assemble, make. intros Hasm Htotal.
  replace (fl_totalSize fl <? 0) with false in Hasm by lia.
  rewrite bind_Ok in Hasm.
  destruct (assemble_loop _ _ _) as [buf| |] eqn:Hloop; [|done..].
  rewrite bind_Ok in Hasm.
  pose proof (assemble_loop_length _ _ _ _ Hloop) as Hlen.
  rewrite length_replicate in Hlen.
  apply assemble_loop_first in Hloop as [H0|(f & [off Hf]%range_elem & ?)].
  - exfalso. rewrite lookup_replicate_2 in H0 by lia.
    destruct buf as [|c buf]; [done|]. injection H0 as ->.
    by rewrite DecodeString_zero in Hasm.
  - by exists off, f.
Qed.

Lemma assemble_first_byte_witness :
  let fl := {| fl_totalSize := 8;
               fragments := {[ 0 := {| id := str "m"; totalSize := 8;
                                       offset := 0;
                                       data := str "nbuq0000" |} ]};
               expiresAt := 0 |} in
  ∃ off f, fragments fl !! off = Some f ∧ offset f = 0 ∧ data f ≠ [].
Proof.
  intros fl. apply (assemble_first_byte key_order fl (str "hi")).
  - vm_compute. reflexivity.
  - vm_compute. reflexivity.
Defined.

(** ** A fragment that runs over the end of the buffer *)

Lemma copy_at_truncates (buf : gostring) (off : Z) (src : gostring) :
  0 ≤ off ≤ len buf → len buf ≤ off + len src →
  copy_at buf off src
  = Ok (take (Z.to_nat off) buf ++ take (Z.to_nat (len buf - off)) src).
Proof.
  unfold copy_at, len. intros Hoff Hover.
  replace ((off <? 0) || (Z.of_nat (length buf) <? off)) with false by lia.
  rewrite Nat.min_l by lia.
  rewrite drop_ge by lia. rewrite app_nil_r.
  do 3 f_equal. lia.
Qed.

(** X14.  A stored fragment with [0 <= offset < totalSize] and
    [offset + len(data) > totalSize] is cut to the buffer: the copy keeps
    the first [totalSize - offset] bytes of the data, which end at the last
    byte of the buffer, drops the rest, and the loop goes on with that
    buffer, without the offset error.  When the fragment is the only one of
    its list, [assemble] returns what the decoder returns on the cut
    buffer: a payload, or [CorruptInputError] when the kept bytes are no
    encoding. *)
Theorem assemble_truncates (o : map_order) (total : Z) (f : fragment)
    (expires : Z) :
  0 ≤ offset f < total →
  total < offset f + len (data f) →
  let kept := take (Z.to_nat (total - offset f)) (data f) in
  (length kept < length (data f))%nat
  ∧ (∀ buf fs, len buf = total →
       len (take (Z.to_nat (offset f)) buf ++ kept) = total
       ∧ assemble_loop total buf (f :: fs)
         = assemble_loop total (take (Z.to_nat (offset f)) buf ++ kept) fs)
  ∧ assemble o {| fl_totalSize := total; fragments := {[ offset f := f ]};
                  expiresAt := expires |}
    = DecodeString (replicate (Z.to_nat (offset f)) zero ++ kept).
Proof.
  intros Hoff Hover kept.
  assert (Hstep : ∀ buf fs, len buf = total →
    len (take (Z.to_nat (offset f)) buf ++ kept) = total
    ∧ assemble_loop total buf (f :: fs)
      = assemble_loop total (take (Z.to_nat (offset f)) buf ++ kept) fs).
  { intros buf fs Hlen. split.
    - unfold len, kept in *. rewrite length_app, !length_take. lia.
    - simpl. replace (total <=? offset f) with false by lia.
      rewrite copy_at_truncates by lia. by rewrite Hlen. }
  split; [|split; [exact Hstep|]].
  - unfold kept, len in *. rewrite length_take. lia.
  - unfold assemble, make. cbn [fl_totalSize fragments].
    replace (total <? 0) with false by lia.
    rewrite range_singleton, bind_Ok.
    destruct (Hstep (replicate (Z.to_nat total) zero) []) as [_ ->].
    { unfold len. rewrite length_replicate. lia. }
    simpl. rewrite take_replicate. do 3 f_equal. lia.
Qed.

Lemma assemble_truncates_witness :
  assemble key_order
    {| fl_totalSize := 8;
       fragments := {[ 0 := {| id := str "m"; totalSize := 8; offset := 0;
                               data := str "nbuq0000zz" |} ]};
       expiresAt := 0 |}
  = Ok (str "hi")
  ∧ assemble key_order
      {| fl_totalSize := 8;
         fragments := {[ 4 := {| id := str "m"; totalSize := 8; offset := 4;
                                 data := str "nbuq0000" |} ]};
         expiresAt := 0 |}
    = DecodeString (replicate 4 zero ++ str "nbuq").
Proof.
  split.
  - etrans.
    + apply (assemble_truncates key_order 8
               {| id := str "m"; totalSize := 8; offset := 0;
                  data := str "nbuq0000zz" |} 0); vm_compute; done.
    + vm_compute. reflexivity.
  - apply (assemble_truncates key_order 8
             {| id := str "m"; totalSize := 8; offset := 4;
                data := str "nbuq0000" |} 0); vm_compute; done.
Defined.
